(** * S-box explorer: substitution tables, demo cipher, cipher file format
      and metric comparison of [static/js/main.js]

    Conventions of the embedding.
    - A JavaScript array that is only read by index (an S-box delivered as
      JSON) is a [list Z]; reading past its end gives [None] ([undefined]).
    - A JavaScript array that is written by computed index
      ([inv[sbox[i]] = i]) is a finite map [gmap Z Z] from property key to
      value: an assignment to any integer key creates or overwrites that
      property, whatever the declared length of the array.
    - A JavaScript string is the list of its UTF-16 code units where the
      code inspects code units ([doCrypto]) and a list of characters (code
      units below 256) where the code slices text
      ([decryptTextEnhanced]).
    - The numbers that the comparison of two S-boxes computes with are the
      values of IEEE 754 binary64 ([Binary64]): subtraction rounds to the
      nearest number, and NaN, the infinities and the two zeros are there.
      The colours of the heat map and the widths of the metric bars are
      computed on exact rationals [Q]. *)

From Stdlib Require Import ZArith QArith Qabs Qround Qminmax Qpower Lia Lqa
  List Bool String Ascii SpecFloat.
From stdpp Require Import gmap list.

Local Open Scope Z_scope.

(** * Part I: the program *)

(** ** JavaScript values *)

Module JS.

(** [a[k]] for a JSON array [a] and a number [k]. *)
Definition index (a : list Z) (k : Z) : option Z :=
  if k <? 0 then None else a !! Z.to_nat k.

(** A cell that may be [undefined], read where the caller needs a number. *)
Definition or_zero (o : option Z) : Z :=
  match o with Some v => v | None => 0 end.

(** [String.fromCharCode(x)]: ToUint16 of the number, 0 for [undefined]. *)
Definition fromCharCode (o : option Z) : N :=
  match o with Some v => Z.to_N (v mod 65536) | None => 0%N end.

(** Strings that the code slices are lists of characters; a character is
    a code unit below 256, so these are the strings of Latin-1 text. *)
Definition lit (s : string) : list ascii := list_ascii_of_string s.

(** White space as [trim], [\s] and [parseInt] see it (WhiteSpace and
    LineTerminator of the language): among the code units below 256 these
    are tab, line feed, vertical tab, form feed, carriage return, space and
    the no-break space U+00A0. *)
Definition is_whitespace (c : ascii) : bool :=
  match N_of_ascii c with
  | 9%N | 10%N | 11%N | 12%N | 13%N | 32%N | 160%N => true
  | _ => false
  end.

Fixpoint trimStart (s : list ascii) : list ascii :=
  match s with
  | c :: s' => if is_whitespace c then trimStart s' else s
  | [] => []
  end.

Definition trimEnd (s : list ascii) : list ascii := rev (trimStart (rev s)).

Definition trim (s : list ascii) : list ascii := trimEnd (trimStart s).

(** [s.startsWith(p)]. *)
Fixpoint startsWith (s p : list ascii) : bool :=
  match p, s with
  | [], _ => true
  | c :: p', d :: s' => Ascii.eqb c d && startsWith s' p'
  | _ :: _, [] => false
  end.

(** [s.split(sep)] for a one-character separator. *)
Fixpoint split (sep : ascii) (s : list ascii) : list (list ascii) :=
  match s with
  | [] => [[]]
  | c :: s' =>
      if Ascii.eqb c sep then [] :: split sep s'
      else match split sep s' with
           | l :: ls => (c :: l) :: ls
           | [] => [[c]]
           end
  end.

(** [s.replace(pat, rep)] with a string pattern: the first occurrence. *)
Fixpoint replace (pat rep s : list ascii) : list ascii :=
  if startsWith s pat then rep ++ drop (length pat) s
  else match s with
       | c :: s' => c :: replace pat rep s'
       | [] => []
       end.

(** [s.replace(/[\s\n\r]/g, '')]. *)
Definition remove_whitespace (s : list ascii) : list ascii :=
  List.filter (fun c => negb (is_whitespace c)) s.

(** [toUpperCase] on one character: the letters a-z go to A-Z.  The other
    code units below 128 stay as they are.  From 128 on the language may
    change a character (to another letter, or to two); whatever it gives
    there is no hexadecimal digit, and neither is the character itself, so
    the hex test that follows every use of [toUpperCase] here is the
    same. *)
Definition toUpperCase_char (c : ascii) : ascii :=
  let k := N_of_ascii c in
  if ((97 <=? k) && (k <=? 122))%N then ascii_of_N (k - 32) else c.

Definition toUpperCase (s : list ascii) : list ascii := map toUpperCase_char s.

(** The value of a character as a digit in radix [R], if it is one. *)
Definition digit_in_radix (R : Z) (c : ascii) : option Z :=
  let k := Z.of_N (N_of_ascii c) in
  let v := if (48 <=? k) && (k <=? 57) then Some (k - 48)
           else if (97 <=? k) && (k <=? 122) then Some (k - 87)
           else if (65 <=? k) && (k <=? 90) then Some (k - 55)
           else None in
  match v with
  | Some d => if d <? R then Some d else None
  | None => None
  end.

(** The longest prefix of digits; [None] when there is no digit. *)
Fixpoint parse_digits (R : Z) (s : list ascii) (acc : option Z) : option Z :=
  match s with
  | c :: s' =>
      match digit_in_radix R c with
      | Some d => parse_digits R s' (Some (R * or_zero acc + d))
      | None => acc
      end
  | [] => acc
  end.

(** [parseInt(s)] ([radix = None]) and [parseInt(s, r)]; [None] is NaN. *)
Definition parseInt (s : list ascii) (radix : option Z) : option Z :=
  let s0 := trimStart s in
  let '(sign, s1) :=
    match s0 with
    | c :: r => if Ascii.eqb c "-" then (-1, r)
                else if Ascii.eqb c "+" then (1, r) else (1, s0)
    | [] => (1, s0)
    end in
  let strip := match radix with None => true | Some r => r =? 16 end in
  let '(R, s2) :=
    match s1 with
    | z :: x :: r =>
        if strip && Ascii.eqb z "0" && (Ascii.eqb x "x" || Ascii.eqb x "X")
        then (16, r) else (default 10 radix, s1)
    | _ => (default 10 radix, s1)
    end in
  Z.mul sign <$> parse_digits R s2 None.

Definition digit_char (d : N) : ascii := ascii_of_N (48 + d).

(** The decimal digits of a natural number, most significant first. *)
Fixpoint digits_fuel (fuel : nat) (n : N) : list ascii :=
  match fuel with
  | O => []
  | S f => (if (n <? 10)%N then [] else digits_fuel f (n / 10)%N)
             ++ [digit_char (n mod 10)%N]
  end.

(** The text a template literal inserts for a non-negative integer. *)
Definition Number_toString (n : N) : list ascii :=
  digits_fuel (S (N.to_nat (N.log2 n))) n.

(** Characters that are no white space, and the decimal digits. *)
Definition plain (c : ascii) : Prop := is_whitespace c = false.

Definition is_decimal (c : ascii) : Prop := ∃ d, (d < 10)%N ∧ c = digit_char d.

End JS.

(** ** Permutation tables *)

Module PermutationTable.

(** One iteration of [for (i...) inv[sbox[i]] = i].  When [sbox[i]] is
    [undefined] the assignment goes to the property named "undefined" and
    leaves every integer key alone. *)
Definition inv_step (sbox : list Z) (inv : gmap Z Z) (i : nat) : gmap Z Z :=
  match sbox !! i with
  | Some v => <[v := Z.of_nat i]> inv
  | None => inv
  end.

(** [new Array(256)]: 256 holes, no integer key is defined. *)
Definition new_Array_256 : gmap Z Z := ∅.

(** [new Array(256).fill(0)]. *)
Definition new_Array_256_fill_0 : gmap Z Z :=
  list_to_map (map (fun i : nat => (Z.of_nat i, 0)) (seq 0 256)).

(** [generateInverseSBox(sbox)]. *)
Definition generateInverseSBox (sbox : list Z) : gmap Z Z :=
  foldl (inv_step sbox) new_Array_256 (seq 0 256).

(** [generateInverseSBoxFromArray(sbox)]. *)
Definition generateInverseSBoxFromArray (sbox : list Z) : gmap Z Z :=
  foldl (inv_step sbox) new_Array_256_fill_0 (seq 0 256).

(** The bijectivity invariant of the data model, as a decision procedure:
    256 entries, each in 0..255, each value of 0..255 exactly once. *)
Definition in_byte_range (v : Z) : bool := (0 <=? v) && (v <? 256).

Definition byte_values : list Z := map Z.of_nat (seq 0 256).

Definition occurs_once (raw : list Z) (v : Z) : bool :=
  Nat.eqb (count_occ Z.eq_dec raw v) 1.

Definition has_length_256 (raw : list Z) : bool := Nat.eqb (length raw) 256.

Definition is_bijection (raw : list Z) : bool :=
  has_length_256 raw && forallb in_byte_range raw
  && forallb (occurs_once raw) byte_values.

(** Modelled from the spec: the error of table construction (§7), which the
    upload service reports and the sources only display; the reason tells
    wrong length, out-of-range value and duplicate or missing value apart. *)
Inductive NotBijectiveReason :=
  | WrongLength
  | ValueOutOfRange
  | DuplicateOrMissingValue.

Inductive TableError := NotBijective (reason : NotBijectiveReason).

(** A table together with its derived inverse (§3 of the specification); in
    the sources the pair is [currentData.sbox] and [inverseSBox]. *)
Record PermutationTable := mkTable {
  forward : list Z;
  inverse : gmap Z Z
}.

(** Modelled from the spec: the validation of an uploaded table is done by
    the upload service ([/upload-custom-sbox]), which is not part of the
    sources; only its caller [handleCustomSboxUpload] is.  Following §4.1:
    the length is exactly 256, every value is in [0,255], every value occurs
    exactly once; on success the inverse is derived eagerly (here with the
    client's own [generateInverseSBox]); on failure the reason tells which
    invariant broke. *)
Definition construct (raw : list Z) : TableError + PermutationTable :=
  if negb (has_length_256 raw) then inl (NotBijective WrongLength)
  else if negb (forallb in_byte_range raw)
       then inl (NotBijective ValueOutOfRange)
  else if negb (forallb (occurs_once raw) byte_values)
       then inl (NotBijective DuplicateOrMissingValue)
  else inr (mkTable raw (generateInverseSBox raw)).

(** The raw inputs the validation has to refuse: wrong length, a value out
    of range, a repeated value, a missing value. *)
Definition malformed (raw : list Z) : Prop :=
  length raw ≠ 256%nat
  ∨ (∃ v, v ∈ raw ∧ ¬ (0 <= v < 256))
  ∨ (∃ i j v, i ≠ j ∧ raw !! i = Some v ∧ raw !! j = Some v)
  ∨ (∃ v, 0 <= v < 256 ∧ v ∉ raw).

(** Modelled from the spec: the lookups [forward(byte)] and [backward(byte)]
    of §4.1, which the text service applies and the sources do not contain;
    they read the two arrays as the demo does ([sbox[b]], [inverseSBox[b]]).
    0 stands for [undefined], which a validated table never yields on a
    byte. *)
Definition forward_byte (t : PermutationTable) (b : Z) : Z :=
  JS.or_zero (JS.index (forward t) b).

(** Modelled from the spec: [backward(byte)] of §4.1, see [forward_byte]. *)
Definition backward_byte (t : PermutationTable) (b : Z) : Z :=
  JS.or_zero (inverse t !! b).

(** Tables used in the examples: the identity; the identity with the
    entries at 5 and 9 exchanged; the identity with the entries at 3 and 7
    both set to 10. *)
Definition identity_table : list Z := byte_values.

Definition swap_5_9 : list Z :=
  map (fun v => if v =? 5 then 9 else if v =? 9 then 5 else v) byte_values.

Definition dup_3_7 : list Z :=
  map (fun v => if v =? 3 then 10 else if v =? 7 then 10 else v) byte_values.

End PermutationTable.

(** ** The substitution cipher of the text service *)

Module SubstitutionCipher.
Import PermutationTable.

(** [encode] and [decode] run in the text service ([/encrypt-text],
    [/decrypt-text]), which is not part of the sources; only the callers
    [encryptTextEnhanced] and [decryptTextEnhanced] are.  Everything in this
    module follows §4.2 of the specification. *)

(** Modelled from the spec: the fixed block size of the text service, 16 in
    scenario 1 of §8. *)
Definition BLOCK_SIZE : nat := 16.

(** Modelled from the spec: the number of pad bytes of the text service for
    a plaintext of [n] bytes: up to the next multiple of the block size, a
    full block when [n] is already a multiple. *)
Definition pad_length (n : nat) : nat := (BLOCK_SIZE - n mod BLOCK_SIZE)%nat.

(** Modelled from the spec: the padding step of the text service: trailing
    pad bytes whose value equals the pad length. *)
Definition pad (p : list Z) : list Z :=
  p ++ replicate (pad_length (length p)) (Z.of_nat (pad_length (length p))).

(** Modelled from the spec: [encode] of the text service (§4.2): pad, then
    apply [table.forward] to every byte; the result is the substituted bytes
    and the length before padding. *)
Definition encode (p : list Z) (t : PermutationTable) : list Z * nat :=
  (map (forward_byte t) (pad p), length p).

(** Modelled from the spec: the error of [decode] in the text service
    (§7). *)
Inductive CipherError := InvalidPadding.

(** Modelled from the spec: removal of the padding from its last byte in
    the text service (§4.2, policy 2): refused when the last byte is 0, exceeds the block
    size, or the trailing bytes are not all equal to it.  An input without
    a last byte is refused as well. *)
Definition unpad (l : list Z) : CipherError + list Z :=
  match last l with
  | None => inl InvalidPadding
  | Some k =>
      if (k <=? 0) || (Z.of_nat BLOCK_SIZE <? k) then inl InvalidPadding
      else if forallb (Z.eqb k) (drop (length l - Z.to_nat k) l)
              && (Z.to_nat k <=? length l)%nat
           then inr (take (length l - Z.to_nat k) l)
           else inl InvalidPadding
  end.

(** Modelled from the spec: [decode] of the text service (§4.2) applies
    [table.backward] to every byte, then truncates to [originalLength] when it is supplied and
    falls back to [unpad] when it is absent. *)
Definition decode (c : list Z) (t : PermutationTable)
    (originalLength : option nat) : CipherError + list Z :=
  let padded := map (backward_byte t) c in
  match originalLength with
  | Some n => inr (take n padded)
  | None => unpad padded
  end.

(** The values of a byte sequence. *)
Definition is_byte (b : Z) : Prop := 0 <= b < 256.

End SubstitutionCipher.

(** ** The interactive demo: [updateUI] and [doCrypto] *)

Module Demo.
Import PermutationTable.

(** The two variables the demo closes over. *)
Record State := mkState {
  currentData_sbox : list Z;
  inverseSBox : gmap Z Z
}.

(** [updateUI(idx)], as far as the cipher state goes: the candidate's table
    becomes current and its inverse is rebuilt. *)
Definition updateUI (sbox : list Z) : State :=
  mkState sbox (generateInverseSBox sbox).

(** How a run of [doCrypto] ends.  [Placeholder]: the input is empty and
    both panes get their hint text.  [Threw]: [b.toString(16)] was called on
    [undefined]; the handler stops with a TypeError before it assigns
    anything.  [Shown ciph dec]: the handler computed the cipher numbers
    [ciph] and the string [dec] (given by its code units) and assigned them
    to the panes; what the pane for the decryption then holds is
    [outDec_textContent] in the first revision and [outDec_innerHTML] in the
    second. *)
Inductive Panes :=
  | Placeholder
  | Threw
  | Shown (ciph : list Z) (dec : list N).

(** [txt.split('').map(c => currentData.sbox[c.charCodeAt(0) % 256])]. *)
Definition encrypt_units (st : State) (txt : list N) : list (option Z) :=
  map (fun c => currentData_sbox st !! N.to_nat (c mod 256)%N) txt.

(** [ciph.map(b => String.fromCharCode(inverseSBox[b]))]. *)
Definition decrypt_units (st : State) (ciph : list Z) : list N :=
  map (fun b => JS.fromCharCode (inverseSBox st !! b)) ciph.

(** [doCrypto()], with [txt] the code units of [els.inputPlain.value]. *)
Definition doCrypto (st : State) (txt : list N) : Panes :=
  match txt with
  | [] => Placeholder
  | _ =>
      match mapM id (encrypt_units st txt) with
      | None => Threw
      | Some ciph => Shown ciph (decrypt_units st ciph)
      end
  end.

(** The input with every code unit [c] replaced by [c mod 256]. *)
Definition low_bytes (txt : list N) : list N := map (fun c => (c mod 256)%N) txt.

(** What is assigned to an output pane: a string through [textContent],
    which the pane shows as it is, or markup through [innerHTML], which the
    browser parses before it shows anything (the parser is not modelled:
    markup, character references and NUL in the string are not shown as
    they are). *)
Inductive Written :=
  | TextContent (s : list N)
  | InnerHTML (markup : list N).

(** The code units of a literal of the source, and of a literal between
    double quotes. *)
Definition units (s : string) : list N :=
  map N_of_ascii (list_ascii_of_string s).

Definition quoted (s : string) : list N := [34%N] ++ units s ++ [34%N].

(** [els.outDec] after [doCrypto] in the first revision of the file:
    [els.outDec.textContent = '...'] for the empty input, and
    [els.outDec.textContent = dec] otherwise.  [None]: nothing was assigned,
    the pane keeps what it had. *)
Definition outDec_textContent (p : Panes) : option Written :=
  match p with
  | Placeholder => Some (TextContent (units "..."))
  | Threw => None
  | Shown _ dec => Some (TextContent dec)
  end.

(** The opening tag that the second revision puts before [dec]. *)
Definition dec_span_open : list N :=
  units "<span class=" ++ quoted "text-emerald-300" ++ units ">".

(** [els.outDec] after [doCrypto] in the second revision: the hint inside a
    [span] for the empty input, and otherwise
    [els.outDec.innerHTML = `<span class=..>${dec}</span>`], with [dec]
    inserted as it is. *)
Definition outDec_innerHTML (p : Panes) : option Written :=
  match p with
  | Placeholder =>
      Some (InnerHTML (units "<span class=" ++ quoted "text-slate-500 italic"
                         ++ units ">Hasil dekripsi akan muncul di sini...</span>"))
  | Threw => None
  | Shown _ dec => Some (InnerHTML (dec_span_open ++ dec ++ units "</span>"))
  end.

End Demo.

(** ** The text tab: encrypt, download, decrypt *)

Module TextTab.
Import PermutationTable SubstitutionCipher.

(** The request of [encryptTextEnhanced] and the JSON answer it reads.  The
    plaintext is taken as the byte sequence the request carries. *)
Record EncryptRequest := mkEncryptRequest {
  req_plaintext : list Z;
  req_key : list ascii
}.

Inductive EncryptResponse :=
  | EncryptOk (cipher_bytes : list Z) (original_length : nat)
  | EncryptError (error : string).

(** The three [alert]s of [encryptTextEnhanced]: "Please enter text to
    encrypt!", "Please enter an encryption key!" and "Encryption failed: "
    followed by the error of the service. *)
Inductive EncryptAlert :=
  | PleaseEnterText
  | PleaseEnterKey
  | EncryptionFailed (error : string).

(** What a click on Encrypt ends with: an [alert], or the cipher stored in
    [window.lastCipherHex] / the hidden fields together with the original
    length. *)
Inductive EncryptOutcome :=
  | Alerted (a : EncryptAlert)
  | CipherStored (cipher_bytes : list Z) (original_length : nat).

Definition DEFAULT_KEY : list ascii := JS.lit "cryptography2024".

(** [value || 'cryptography2024']. *)
Definition key_or_default (keyField : list ascii) : list ascii :=
  match keyField with [] => DEFAULT_KEY | _ => keyField end.

(** [encryptTextEnhanced()], for a service [service] behind
    [fetch('/encrypt-text')].  The choice of the S-box is part of the
    service here, and a request that fails to get an answer (the [catch]
    branch) is left out. *)
Definition encryptTextEnhanced (service : EncryptRequest → EncryptResponse)
    (txt : list Z) (keyField : list ascii) : EncryptOutcome :=
  match txt with
  | [] => Alerted PleaseEnterText
  | _ =>
      let encryptionKey := key_or_default keyField in
      match JS.trim encryptionKey with
      | [] => Alerted PleaseEnterKey
      | _ =>
          match service (mkEncryptRequest txt encryptionKey) with
          | EncryptOk c n => CipherStored c n
          | EncryptError e => Alerted (EncryptionFailed e)
          end
      end
  end.

(** Modelled from the spec: the text service answers an encode request with
    [encode] on the table the request designates (§6); it has no failure
    mode. *)
Definition encode_service (t : PermutationTable) (r : EncryptRequest)
    : EncryptResponse :=
  let '(c, n) := encode (req_plaintext r) t in EncryptOk c n.

(** The click handler of the download button: the content of the file, or
    [None] when there is nothing to download (an [alert]). *)
Definition download_content (lastCipherHex : option (list ascii))
    (lastOriginalLength : option N) : option (list ascii) :=
  match lastCipherHex with
  | None | Some [] => None
  | Some hexToDownload =>
      Some match lastOriginalLength with
           | None | Some 0%N => hexToDownload
           | Some originalLength =>
               JS.lit "LENGTH:" ++ JS.Number_toString originalLength
                 ++ JS.lit (String "010" "HEX:") ++ hexToDownload
           end
  end.

(** The loop of [decryptTextEnhanced] over the lines of a text that starts
    with [LENGTH:]; the state is [(originalLength, inputText)]. *)
Definition header_step (st : option Z * list ascii) (line : list ascii)
    : option Z * list ascii :=
  if JS.startsWith line (JS.lit "LENGTH:")
  then (JS.parseInt (JS.trim (JS.replace (JS.lit "LENGTH:") [] line)) None,
        snd st)
  else if JS.startsWith line (JS.lit "HEX:")
  then (fst st, JS.trim (JS.replace (JS.lit "HEX:") [] line))
  else st.

Definition is_hex_upper (c : ascii) : bool :=
  let k := N_of_ascii c in
  (((48 <=? k) && (k <=? 57)) || ((65 <=? k) && (k <=? 70)))%N.

(** [/^[0-9A-F]+$/.test(s)]. *)
Definition hex_test (s : list ascii) : bool :=
  match s with [] => false | _ => forallb is_hex_upper s end.

(** The loop that turns pairs of hex digits into bytes; a pair that is no
    number stands as 0. *)
Fixpoint hex_bytes (s : list ascii) : list Z :=
  match s with
  | a :: b :: s' => JS.or_zero (JS.parseInt [a; b] (Some 16)) :: hex_bytes s'
  | [a] => [JS.or_zero (JS.parseInt [a] (Some 16))]
  | [] => []
  end.

(** The two [alert]s of [decryptTextEnhanced] before its request: "Masukkan
    ciphertext hex untuk didekripsi!" and "Input tidak valid sebagai
    ciphertext! ...". *)
Inductive DecryptAlert :=
  | NoCipherInput
  | NotValidCipherText.

(** What [decryptTextEnhanced] has in hand when it builds its request. *)
Record CipherInput := mkCipherInput {
  originalLength : option Z;
  cipherHex : list ascii;
  cipherBytes : list Z
}.

(** [decryptTextEnhanced()] up to the request: [inputField] is
    [els.inputPlain.value], [lengthField] the hidden field
    [originalLengthData]; the answer is the [alert] text or the parsed
    input. *)
Definition parse_cipher_input (inputField lengthField : list ascii)
    : DecryptAlert + CipherInput :=
  let inputText := JS.trim inputField in
  let originalLength :=
    match JS.parseInt lengthField None with
    | Some 0 | None => None
    | Some n => Some n
    end in
  match inputText with
  | [] => inl NoCipherInput
  | _ =>
      let '(originalLength, inputText) :=
        if JS.startsWith inputText (JS.lit "LENGTH:")
        then foldl header_step (originalLength, inputText)
               (JS.split "010" inputText)
        else (originalLength, inputText) in
      let cleanedInput := JS.toUpperCase (JS.remove_whitespace inputText) in
      if hex_test cleanedInput && (length cleanedInput mod 2 =? 0)%nat
         && (32 <=? length cleanedInput)%nat
      then inr (mkCipherInput originalLength cleanedInput
                  (hex_bytes cleanedInput))
      else inl NotValidCipherText
  end.

(** A cipher in the form the service returns and [decryptTextEnhanced]
    accepts: upper-case hex digits, two per byte, at least one block. *)
Definition is_cipher_hex (h : list ascii) : bool :=
  hex_test h && (length h mod 2 =? 0)%nat && (32 <=? length h)%nat.

End TextTab.

(** ** Numbers *)

Module Binary64.

(** The numbers of the language are the values of IEEE 754 binary64.  The
    Standard Library specifies them as [spec_float] at precision 53 and
    maximal exponent 1024, with the operations rounded to the nearest value
    (ties to even). *)
Definition prec : Z := 53.
Definition emax : Z := 1024.
Definition number : Type := spec_float.

(** [x - y] and [Math.abs(x)]. *)
Definition sub : number → number → number := SFsub prec emax.
Definition abs : number → number := SFabs.

(** [x < y] and [x > y]; both are false when a side is NaN. *)
Definition ltb : number → number → bool := SFltb.
Definition gtb (x y : number) : bool := ltb y x.

Definition is_nan (x : number) : bool :=
  match x with S754_nan => true | _ => false end.

(** The literal [0.5]. *)
Definition half : number := S754_finite false 4503599627370496 (-53).

(** An integer, and the number that the decimal text of the fraction [n/d]
    is read as: the nearest one. *)
Definition of_Z (n : Z) : number := binary_normalize prec emax n 0 false.
Definition ratio (n d : Z) : number := SFdiv prec emax (of_Z n) (of_Z d).

(** [x || 0] on a number: 0 for the falsy numbers 0, -0 and NaN. *)
Definition or0 (x : number) : number :=
  match x with
  | S754_zero _ | S754_nan => S754_zero false
  | _ => x
  end.

(** The representations that stand for a number of binary64, and the exact
    value of a finite one. *)
Definition valid (x : number) : bool := valid_binary prec emax x.

Definition value (x : number) : option Q :=
  match x with
  | S754_zero _ => Some 0%Q
  | S754_finite s m e => Some (inject_Z (cond_Zopp s (Zpos m)) * 2 ^ e)%Q
  | S754_infinity _ | S754_nan => None
  end.

(** [x] is the finite number whose exact value is [v]. *)
Definition finite (x : number) (v : Q) : Prop :=
  valid x = true ∧ ∃ w, value x = Some w ∧ (w == v)%Q.

(** The value of a finite number in units of 2^-1074, the smallest step of
    binary64. *)
Definition scaled (x : number) : Z :=
  match x with
  | S754_finite s m e => cond_Zopp s (Zpos m) * 2 ^ (e + 1074)
  | _ => 0
  end.

(** [parseFloat(x.toFixed(4))].  For a finite [x] below 10^21 in size,
    [toFixed] writes the integer [n] nearest to |x| * 10^4 (the larger one
    of two that are equally near) with four decimals, behind a minus sign
    when [x < 0]; [parseFloat] reads the text as the number nearest to
    n / 10^4, which is what the division of the integer [n] by 10^4 gives
    ("0.0000" and "-0.0000" are read as 0 and -0).  From 10^21 on, and for
    NaN and the infinities, [toFixed] writes what [String] writes, which is
    read back as [x].  Below, [num / den] is |x| * 10^4. *)
Definition toFixed4 (x : number) : number :=
  match x with
  | S754_finite s m e =>
      let '(num, den) :=
        match e with
        | Zneg k => (Zpos m * 10000, 2 ^ Zpos k)
        | _ => (Zpos m * 2 ^ e * 10000, 1)
        end in
      if 10 ^ 25 * den <=? num then x
      else match (2 * num + den) / (2 * den) with
           | Zpos n => SFdiv prec emax (S754_finite s n 0)
                         (S754_finite false 10000 0)
           | _ => S754_zero s
           end
  | S754_zero _ => S754_zero false
  | S754_infinity _ | S754_nan => x
  end.

End Binary64.

(** ** The comparison of two S-boxes *)

Module MetricComparator.
Import Binary64.

(** The metrics object of an uploaded S-box ([uploadedCustomSbox.metrics]),
    as far as the comparison reads it. *)
Record CustomMetrics := mkCustom {
  nonlinearity : number;
  sac : number;
  bic : number;
  lap : number;
  dap : number;
  fixed_points : number
}.

(** The metrics object of a catalogued S-box ([existingSbox.metrics]). *)
Record ExistingMetrics := mkExisting {
  NL : number;
  SAC : number;
  BIC_NL : number;
  BIC_SAC : number;
  LAP : number;
  DAP : number;
  DU : number;
  AD : number;
  TO : number;
  CI : number
}.

(** The flags [customBetter] and [existingBetter] of
    [renderComparisonRow]. *)
Definition comparison_flags (compareType : string)
    (customNum existingNum : number) : bool * bool :=
  if String.eqb compareType "higher" then
    if gtb customNum existingNum then (true, false)
    else if gtb existingNum customNum then (false, true)
    else (false, false)
  else if String.eqb compareType "lower" then
    if ltb customNum existingNum then (true, false)
    else if ltb existingNum customNum then (false, true)
    else (false, false)
  else if String.eqb compareType "closer_to_0.5" then
    let customDiff := abs (sub customNum half) in
    let existingDiff := abs (sub existingNum half) in
    if ltb customDiff existingDiff then (true, false)
    else if ltb existingDiff customDiff then (false, true)
    else (false, false)
  else (false, false).

(** One row of the comparison table: the label, the two values shown, the
    target text, and which side carries the trophy. *)
Record Row := mkRow {
  row_label : string;
  row_custom : number;
  row_existing : number;
  row_target : string;
  customBetter : bool;
  existingBetter : bool
}.

(** [renderComparisonRow(label, customVal, existingVal, compareType,
    target)]; the values arrive as [parseFloat] reads them ([parseFloat]
    of a number is that number, up to the sign of zero). *)
Definition renderComparisonRow (label : string)
    (customVal existingVal : number) (compareType target : string) : Row :=
  let '(customBetter, existingBetter) :=
    comparison_flags compareType customVal existingVal in
  mkRow label customVal existingVal target customBetter existingBetter.

Inductive Verdict := ABetter | BBetter | Tie.

(** A is the uploaded side, B the catalogued one. *)
Definition verdict_of_flags (flags : bool * bool) : Verdict :=
  if fst flags then ABetter else if snd flags then BBetter else Tie.

Definition row_verdict (r : Row) : Verdict :=
  verdict_of_flags (customBetter r, existingBetter r).

Definition verdict (compareType : string) (a b : number) : Verdict :=
  verdict_of_flags (comparison_flags compareType a b).

(** The shape shared by all three directions: a strict comparison, then
    the converse comparison, else a tie. *)
Definition three_way (x y : number) : Verdict :=
  if ltb x y then ABetter else if ltb y x then BBetter else Tie.

Definition swap_verdict (v : Verdict) : Verdict :=
  match v with ABetter => BBetter | BBetter => ABetter | Tie => Tie end.

(** The rows the click handler of [compareSboxBtn] renders, in order. *)
Definition comparison_rows (customMetrics : CustomMetrics)
    (existingMetrics : ExistingMetrics) : list Row :=
  [ renderComparisonRow "Nonlinearity" (nonlinearity customMetrics)
      (NL existingMetrics) "higher" "≥100";
    renderComparisonRow "SAC" (toFixed4 (sac customMetrics))
      (toFixed4 (SAC existingMetrics)) "closer_to_0.5" "~0.5";
    renderComparisonRow "BIC" (toFixed4 (bic customMetrics))
      (toFixed4 (BIC_SAC existingMetrics)) "closer_to_0.5" "~0.5";
    renderComparisonRow "LAP" (toFixed4 (lap customMetrics))
      (toFixed4 (LAP existingMetrics)) "lower" "≤0.0625";
    renderComparisonRow "DAP" (toFixed4 (dap customMetrics))
      (toFixed4 (DAP existingMetrics)) "lower" "≤0.0156";
    renderComparisonRow "Fixed Points" (fixed_points customMetrics)
      (or0 (TO existingMetrics)) "lower" "0-2" ].

Inductive Side := Custom | Existing.

(** The running state of [generateComparisonSummary]: [customWins],
    [existingWins] and [details] (which side, on which property). *)
Definition Tally : Type := nat * nat * list (Side * string).

(** [if (a) { customWins++; details.push(..) }
     else if (b) { existingWins++; details.push(..) }]. *)
Definition tally (st : Tally) (customLeads existingLeads : bool)
    (property : string) : Tally :=
  let '(customWins, existingWins, details) := st in
  if customLeads then (S customWins, existingWins, details ++ [(Custom, property)])
  else if existingLeads
       then (customWins, S existingWins, details ++ [(Existing, property)])
  else st.

Record Summary := mkSummary {
  customWins : nat;
  existingWins : nat;
  overall : Verdict;
  details : list (Side * string)
}.

(** The five comparisons of [generateComparisonSummary], threading the
    counters and the detail lines. *)
Definition summary_tally (customMetrics : CustomMetrics)
    (existingMetrics : ExistingMetrics) : Tally :=
  let st : Tally := (0%nat, 0%nat, []) in
  let st := tally st
              (gtb (nonlinearity customMetrics) (NL existingMetrics))
              (gtb (NL existingMetrics) (nonlinearity customMetrics))
              "Nonlinearity" in
  let customSacDiff := abs (sub (sac customMetrics) half) in
  let existingSacDiff := abs (sub (SAC existingMetrics) half) in
  let st := tally st (ltb customSacDiff existingSacDiff)
              (ltb existingSacDiff customSacDiff) "SAC" in
  let st := tally st (ltb (lap customMetrics) (LAP existingMetrics))
              (ltb (LAP existingMetrics) (lap customMetrics)) "LAP" in
  let st := tally st (ltb (dap customMetrics) (DAP existingMetrics))
              (ltb (DAP existingMetrics) (dap customMetrics)) "DAP" in
  let existingFP := or0 (TO existingMetrics) in
  tally st (ltb (fixed_points customMetrics) existingFP)
    (ltb existingFP (fixed_points customMetrics)) "Fixed Points".

(** The headline: [if (customWins > existingWins) .. else if (existingWins >
    customWins) .. else ..]. *)
Definition headline (customWins existingWins : nat) : Verdict :=
  if (existingWins <? customWins)%nat then ABetter
  else if (customWins <? existingWins)%nat then BBetter
  else Tie.

(** [generateComparisonSummary(customName, existingName, customMetrics,
    existingMetrics)]: the two counters, the headline and the detail
    lines; the names only label the output. *)
Definition generateComparisonSummary (customMetrics : CustomMetrics)
    (existingMetrics : ExistingMetrics) : Summary :=
  let '(customWins, existingWins, details) :=
    summary_tally customMetrics existingMetrics in
  mkSummary customWins existingWins (headline customWins existingWins) details.

(** The five comparisons the summary makes, as verdicts on the values it
    reads (no rounding to four decimals here). *)
Definition summary_verdicts (customMetrics : CustomMetrics)
    (existingMetrics : ExistingMetrics) : list Verdict :=
  [ verdict "higher" (nonlinearity customMetrics) (NL existingMetrics);
    verdict "closer_to_0.5" (sac customMetrics) (SAC existingMetrics);
    verdict "lower" (lap customMetrics) (LAP existingMetrics);
    verdict "lower" (dap customMetrics) (DAP existingMetrics);
    verdict "lower" (fixed_points customMetrics) (or0 (TO existingMetrics)) ].

Definition wins (side : Verdict) (vs : list Verdict) : nat :=
  length (List.filter
            (fun v => match side, v with
                      | ABetter, ABetter | BBetter, BBetter => true
                      | _, _ => false
                      end) vs).

(** The two payloads with their roles exchanged: each value the comparison
    reads on one side is moved to the field it reads on the other side. *)
Definition exchange_custom (e : ExistingMetrics) : CustomMetrics :=
  mkCustom (NL e) (SAC e) (BIC_SAC e) (LAP e) (DAP e) (TO e).

Definition exchange_existing (c : CustomMetrics) (e : ExistingMetrics)
    : ExistingMetrics :=
  mkExisting (nonlinearity c) (sac c) (BIC_NL e) (bic c) (lap c) (dap c)
    (DU e) (AD e) (fixed_points c) (CI e).

(** The key order of §4.4 of the specification. *)
Definition canonical_keys : list string :=
  ["NL"; "SAC"; "BIC_NL"; "BIC_SAC"; "LAP"; "DAP"; "DU"; "AD"; "TO"; "CI"]%string.

(** Sample payloads: equal on everything but BIC, where the uploaded side
    sits on the target 0.5 and the catalogued one at 0.4. *)
Definition sample_custom : CustomMetrics :=
  mkCustom (of_Z 112) half half (ratio 1 16) (ratio 1 64) (of_Z 0).

Definition sample_existing : ExistingMetrics :=
  mkExisting (of_Z 112) half (of_Z 112) (ratio 2 5) (ratio 1 16) (ratio 1 64)
    (of_Z 4) (of_Z 7) (of_Z 0) (of_Z 0).

(** Payloads that differ on SAC only: 0.44996 on the uploaded side, 0.55 on
    the catalogued one. *)
Definition rounded_custom : CustomMetrics :=
  mkCustom (of_Z 112) (ratio 44996 100000) half (ratio 1 16) (ratio 1 64)
    (of_Z 0).

Definition rounded_existing : ExistingMetrics :=
  mkExisting (of_Z 112) (ratio 55 100) (of_Z 112) half (ratio 1 16)
    (ratio 1 64) (of_Z 4) (of_Z 7) (of_Z 0) (of_Z 0).

End MetricComparator.

(** ** Hexadecimal text *)

Module Hex.

(** One digit of [n.toString(16)]: [0-9a-f]. *)
Definition hex_digit (d : N) : ascii :=
  if (d <? 10)%N then ascii_of_N (48 + d) else ascii_of_N (87 + d).

(** The hexadecimal digits of a natural number, most significant first. *)
Fixpoint hex_digits_fuel (fuel : nat) (n : N) : list ascii :=
  match fuel with
  | O => []
  | S f => (if (n <? 16)%N then [] else hex_digits_fuel f (n / 16)%N)
             ++ [hex_digit (n mod 16)%N]
  end.

Definition hex_digits (n : N) : list ascii :=
  hex_digits_fuel (S (N.to_nat (N.log2 n))) n.

(** [v.toString(16)] for an integer [v]. *)
Definition toString16 (v : Z) : list ascii :=
  if v <? 0 then "-"%char :: hex_digits (Z.to_N (- v))
  else hex_digits (Z.to_N v).

(** [s.padStart(targetLength, c)] for a one-character filler. *)
Definition padStart (targetLength : nat) (c : ascii) (s : list ascii)
    : list ascii :=
  replicate (targetLength - length s) c ++ s.

(** [v.toString(16).toUpperCase().padStart(2, '0')], the text of a table
    cell and of a cipher byte. *)
Definition hex_cell (v : Z) : list ascii :=
  padStart 2 "0" (JS.toUpperCase (toString16 v)).

(** [parts.join(sep)]. *)
Definition join (sep : list ascii) (parts : list (list ascii)) : list ascii :=
  match parts with
  | [] => []
  | part :: rest => part ++ flat_map (fun q => sep ++ q) rest
  end.

(** The text of the cipher pane in the first revision of [doCrypto]:
    [ciph.map(b => b.toString(16).toUpperCase().padStart(2,'0')).join(' ')]. *)
Definition cipher_pane (ciph : list Z) : list ascii :=
  join [" "%char] (map hex_cell ciph).

End Hex.

(** ** The S-box grid: [getHeatmapColor] and [renderSbox] *)

Module Grid.
Local Open Scope Q_scope.

(** [getHeatmapColor(value)]: hue, saturation (percent) and lightness
    (percent) of the [hsl(...)] text. *)
Definition getHeatmapColor (value : Q) : Q * Q * Q :=
  let hue := 180 - (value / 255) * 180 in
  let saturation := 70 + (value / 255) * 30 in
  let lightness := 45 + (value / 255) * 10 in
  (hue, saturation, lightness).

(** The two style properties [renderSbox] sets on a cell: the background is
    a heat colour or the fixed [rgba(30, 41, 59, 0.6)]; the text colour is
    [#fff], [#1e293b] or [#e2e8f0]. *)
Inductive Background := Heat (hsl : Q * Q * Q) | DarkGlass.

Inductive TextColor := White | Slate800 | Slate200.

Record Cell := mkCell {
  cell_idx : nat;
  cell_text : list ascii;
  cell_background : Background;
  cell_color : TextColor
}.

(** The body of the inner loop of [renderSbox] for a defined [val]. *)
Definition render_cell (heatmapEnabled : bool) (idx : nat) (val : Z) : Cell :=
  let hexVal := Hex.hex_cell val in
  if heatmapEnabled
  then mkCell idx hexVal (Heat (getHeatmapColor (inject_Z val)))
         (if (128 <? val)%Z then White else Slate800)
  else mkCell idx hexVal DarkGlass Slate200.

(** [idx = (row * 16) + col] over the two loops. *)
Definition cell_indices : list nat :=
  flat_map (fun row => map (fun col => (row * 16 + col)%nat) (seq 0 16))
    (seq 0 16).

(** [renderSbox(sbox)]: the data cells in the order they are appended.
    [None]: [val.toString(16)] was called on [undefined]; the handler stops
    with a TypeError and the grid stays incomplete. *)
Definition renderSbox (heatmapEnabled : bool) (sbox : list Z)
    : option (list Cell) :=
  mapM (fun idx => render_cell heatmapEnabled idx <$> sbox !! idx)
    cell_indices.

End Grid.

(** ** Which candidate is selected *)

Module Selection.

(** A candidate of [window.APP_DATA], as far as selection reads it. *)
Record Candidate := mkCandidate {
  cand_id : string;
  cand_type : string;
  cand_sbox : list Z
}.

(** [a.findIndex(p)]; -1 when no element satisfies [p]. *)
Fixpoint findIndex {A} (p : A → bool) (a : list A) : Z :=
  match a with
  | [] => -1
  | x :: a' =>
      if p x then 0
      else let r := findIndex p a' in if r =? -1 then -1 else r + 1
  end.

(** The end of the initialisation: nothing is selected when there is no
    data (the early [return]); otherwise the first candidate whose id is
    K44, or candidate 0. *)
Definition initial_selection (candidatesData : list Candidate) : option Z :=
  match candidatesData with
  | [] => None
  | _ =>
      let k44Idx :=
        findIndex (fun c => String.eqb (cand_id c) "K44") candidatesData in
      Some (if k44Idx =? -1 then 0 else k44Idx)
  end.

(** The values of the [option] elements of the two groups: "Referensi
    Utama" for the types standard and proposed, "Hasil Eksplorasi" for the
    rest. *)
Definition is_reference (c : Candidate) : bool :=
  String.eqb (cand_type c) "standard" || String.eqb (cand_type c) "proposed".

Fixpoint option_groups_from (i : nat) (candidatesData : list Candidate)
    : list nat * list nat :=
  match candidatesData with
  | [] => ([], [])
  | d :: rest =>
      let '(groupRef, groupGen) := option_groups_from (S i) rest in
      if is_reference d then (i :: groupRef, groupGen)
      else (groupRef, i :: groupGen)
  end.

Definition option_groups (candidatesData : list Candidate)
    : list nat * list nat :=
  option_groups_from 0 candidatesData.

(** The options in document order. *)
Definition option_values (candidatesData : list Candidate) : list nat :=
  fst (option_groups candidatesData) ++ snd (option_groups candidatesData).

Inductive Key := ArrowLeft | ArrowRight | OtherKey.

(** What the user does: a key press (on an input element or elsewhere), or
    the choice of the option with value [v] in the drop-down. *)
Inductive Event :=
  | Keydown (targetIsInput : bool) (key : Key)
  | Change (v : nat).

(** The [keydown] listener of the first revision and the [change]
    listener; the state is the index handed to [updateUI], which is also the
    value of the selector. *)
Definition handle (candidatesData : list Candidate) (currentIdx : Z)
    (e : Event) : Z :=
  match e with
  | Keydown true _ => currentIdx
  | Keydown false ArrowLeft =>
      if 0 <? currentIdx then currentIdx - 1 else currentIdx
  | Keydown false ArrowRight =>
      if currentIdx <? Z.of_nat (length candidatesData) - 1
      then currentIdx + 1 else currentIdx
  | Keydown false OtherKey => currentIdx
  | Change v => Z.of_nat v
  end.

(** An event the page can deliver: a [change] carries the value of one of
    the options. *)
Definition deliverable (candidatesData : list Candidate) (e : Event) : Prop :=
  match e with
  | Change v => v ∈ option_values candidatesData
  | Keydown _ _ => True
  end.

(** An index that [candidatesData] has. *)
Definition in_range (candidatesData : list Candidate) (idx : Z) : Prop :=
  0 <= idx < Z.of_nat (length candidatesData).

(** [currentData = candidatesData[idx]]. *)
Definition currentData (candidatesData : list Candidate) (idx : Z)
    : option Candidate :=
  if idx <? 0 then None else candidatesData !! Z.to_nat idx.

(** A small catalogue for the examples. *)
Definition sample_candidates : list Candidate :=
  [ mkCandidate "AES" "standard" PermutationTable.identity_table;
    mkCandidate "K1" "generated" PermutationTable.swap_5_9;
    mkCandidate "K44" "proposed" PermutationTable.swap_5_9 ].

End Selection.

(** ** The text tab: decrypt, copy, and what the window remembers *)

Module TextFlow.
Import TextTab.

(** The request of [decryptTextEnhanced] and the JSON answer it reads. *)
Record DecryptRequest := mkDecryptRequest {
  dreq_cipher_bytes : list Z;
  dreq_key : list ascii;
  dreq_original_length : option Z
}.

Inductive DecryptResponse :=
  | DecryptOk (plaintext : list ascii)
  | DecryptError (error : string).

(** The [alert]s of [decryptTextEnhanced]: the two of the input check,
    "Please enter the decryption key!", and "Decryption failed: " followed
    by the error of the service. *)
Inductive DecryptFlowAlert :=
  | InputAlert (a : DecryptAlert)
  | PleaseEnterDecryptionKey
  | DecryptionFailed (error : string).

Inductive DecryptOutcome :=
  | DecryptAlerted (a : DecryptFlowAlert)
  | PlaintextShown (plaintext : list ascii).

(** [decryptTextEnhanced()], for a service [service] behind
    [fetch('/decrypt-text')].  The choice of the S-box is part of the
    service here, and a request that fails to get an answer (the [catch]
    branch) is left out. *)
Definition decryptTextEnhanced (service : DecryptRequest → DecryptResponse)
    (inputField lengthField keyField : list ascii) : DecryptOutcome :=
  match parse_cipher_input inputField lengthField with
  | inl a => DecryptAlerted (InputAlert a)
  | inr input =>
      let encryptionKey := key_or_default keyField in
      match JS.trim encryptionKey with
      | [] => DecryptAlerted PleaseEnterDecryptionKey
      | _ =>
          match service (mkDecryptRequest (cipherBytes input) encryptionKey
                           (originalLength input)) with
          | DecryptOk plaintext => PlaintextShown plaintext
          | DecryptError e => DecryptAlerted (DecryptionFailed e)
          end
      end
  end.

(** The three properties of [window] the text tab writes. *)
Record Window := mkWindow {
  lastCipherHex : option (list ascii);
  lastOriginalLength : option N;
  lastDecryptedText : option (list ascii)
}.

Definition fresh_window : Window := mkWindow None None None.

(** What happened on the tab: an encryption or a decryption the service
    answered with success, or an action that ended in an [alert]. *)
Inductive Action :=
  | Encrypted (cipher_hex : list ascii) (original_length : option N)
  | Decrypted (plaintext : list ascii)
  | Failed.

(** [cipherHex.match(/.{2}/g)] is not [null]: the text has two consecutive
    characters that are no line breaks. *)
Definition is_line_break (c : ascii) : bool :=
  Ascii.eqb c "010" || Ascii.eqb c "013".

Fixpoint has_pair (s : list ascii) : bool :=
  match s with
  | a :: (b :: _) as rest =>
      (negb (is_line_break a) && negb (is_line_break b)) || has_pair rest
  | _ => false
  end.

(** The assignments in the success branches of [encryptTextEnhanced] and
    [decryptTextEnhanced].  The encrypt branch first renders
    [cipherHex.match(/.{2}/g).map(...)]; when the match is [null] this
    throws before anything is assigned. *)
Definition record_action (w : Window) (a : Action) : Window :=
  match a with
  | Encrypted cipher_hex original_length =>
      if has_pair cipher_hex
      then mkWindow (Some cipher_hex) original_length None
      else w
  | Decrypted plaintext =>
      mkWindow None (lastOriginalLength w) (Some plaintext)
  | Failed => w
  end.

(** A string that counts as true: defined and not empty. *)
Definition truthy (o : option (list ascii)) : option (list ascii) :=
  match o with
  | Some (c :: s) => Some (c :: s)
  | _ => None
  end.

(** The click handler of the copy button: the text written to the
    clipboard ([lastDecryptedText || lastCipherHex]), or [None] for the
    [alert]. *)
Definition copy_text (w : Window) : option (list ascii) :=
  match truthy (lastDecryptedText w) with
  | Some text => Some text
  | None => truthy (lastCipherHex w)
  end.

(** The click handler of the download button on the window. *)
Definition download (w : Window) : option (list ascii) :=
  download_content (lastCipherHex w) (lastOriginalLength w).

(** [parseInt(field) || null] for the hidden length field. *)
Definition hidden_length (lengthField : list ascii) : option Z :=
  match JS.parseInt lengthField None with
  | Some 0 | None => None
  | Some n => Some n
  end.

End TextFlow.

(** ** The detail lines of the comparison summary *)

Module SummaryDetail.
Import MetricComparator.

(** What one [if .. else if ..] of [generateComparisonSummary] pushes onto
    [details]. *)
Definition step_details (customLeads existingLeads : bool) (property : string)
    : list (Side * string) :=
  if customLeads then [(Custom, property)]
  else if existingLeads then [(Existing, property)]
  else [].

(** The side a step decides for. *)
Definition leads (side : Side) (customLeads existingLeads : bool) : Prop :=
  match side with
  | Custom => customLeads = true
  | Existing => customLeads = false ∧ existingLeads = true
  end.

(** The properties the summary compares, in its order. *)
Definition summary_properties : list string :=
  ["Nonlinearity"; "SAC"; "LAP"; "DAP"; "Fixed Points"]%string.

Definition is_custom (d : Side * string) : bool :=
  match fst d with Custom => true | Existing => false end.

End SummaryDetail.

(** ** The progress bars of the metric cards *)

Module MetricBars.
Local Open Scope Q_scope.

(** The [metrics] object of a candidate, as [renderMetrics] reads it.  The
    widths of the bars are computed on the exact values of the numbers. *)
Record Metrics := mkMetrics {
  NL : Q;
  SAC : Q;
  BIC_NL : Q;
  BIC_SAC : Q;
  LAP : Q;
  DAP : Q;
  DU : Q;
  AD : Q;
  TO : Q;
  CI : Q
}.

(** [a < b] on these values. *)
Definition Qltb (a b : Q) : bool :=
  match a ?= b with Lt => true | _ => false end.

(** [parseFloat(x.toFixed(digits))], with [scale] = 10^digits. *)
Definition toFixed (scale : Z) (x : Q) : Q :=
  let round y := inject_Z (Qfloor (y * inject_Z scale + (1 # 2)))
                 / inject_Z scale in
  if Qltb x 0 then - round (- x) else round x.

(** One entry of [metricConfigs]: the value as [parseFloat] reads it, the
    maximum, and the three optional marks. *)
Record MetricConfig := mkConfig {
  cfg_value : Q;
  cfg_max : Q;
  cfg_inverse : bool;
  cfg_isZeroGood : bool;
  cfg_isClose : option bool
}.

(** [metricConfigs] of [renderMetrics], in the order of [Object.entries]. *)
Definition metricConfigs (metrics : Metrics)
    : list (string * MetricConfig) :=
  let isClose x := Some (Qltb (Qabs (x - (1 # 2))) (1 # 100)) in
  [ ("NL", mkConfig (NL metrics) 112 false false None);
    ("SAC", mkConfig (toFixed 100000 (SAC metrics)) 1 false false
              (isClose (SAC metrics)));
    ("BIC_NL", mkConfig (BIC_NL metrics) 112 false false None);
    ("BIC_SAC", mkConfig (toFixed 100000 (BIC_SAC metrics)) 1 false false
                  (isClose (BIC_SAC metrics)));
    ("LAP", mkConfig (toFixed 10000 (LAP metrics)) (1 # 2) true false None);
    ("DAP", mkConfig (toFixed 10000 (DAP metrics)) (1 # 2) true false None);
    ("DU", mkConfig (DU metrics) 256 true false None);
    ("AD", mkConfig (AD metrics) 7 false false None);
    ("TO", mkConfig (TO metrics) 10 true false None);
    ("CI", mkConfig (CI metrics) 5 false true None) ]%string.

(** The [progress] of one card. *)
Definition progress (config : MetricConfig) : Q :=
  if cfg_inverse config
  then Qmax 0 (1 - cfg_value config / cfg_max config) * 100
  else if cfg_isZeroGood config
  then (if Qeq_bool (cfg_value config) 0 then 100
        else Qmax 0 (1 - cfg_value config / cfg_max config) * 100)
  else match cfg_isClose config with
       | Some isClose => if isClose then 100 else 50
       | None => cfg_value config / cfg_max config * 100
       end.

(** The width given to the bar, in percent: [Math.min(100, progress)]. *)
Definition bar_width (config : MetricConfig) : Q :=
  Qmin 100 (progress config).

(** Sample metrics: those of the AES S-box. *)
Definition sample_metrics : Metrics :=
  mkMetrics 112 (1 # 2) 112 (1 # 2) (1 # 16) (1 # 64) 4 7 (7 # 1) 0.

End MetricBars.

(** * Part II: properties *)

Import PermutationTable.

Lemma index_of_nat (a : list Z) (i : nat) : JS.index a (Z.of_nat i) = a !! i.
Proof.
  unfold JS.index. destruct (Z.ltb_spec (Z.of_nat i) 0); [lia|].
  by rewrite Nat2Z.id.
Qed.

(** *** Facts about the invariant *)

Lemma is_bijection_length raw : is_bijection raw = true → length raw = 256%nat.
Proof.
  unfold is_bijection, has_length_256. rewrite !andb_true_iff.
  intros [[H _] _]. by apply Nat.eqb_eq.
Qed.

Lemma is_bijection_range raw v :
  is_bijection raw = true → v ∈ raw → 0 <= v < 256.
Proof.
  unfold is_bijection. rewrite !andb_true_iff. intros [[_ H] _] Hin.
  rewrite forallb_forall in H. apply list_elem_of_In, H in Hin.
  unfold in_byte_range in Hin. lia.
Qed.

Lemma elem_of_byte_values v : v ∈ byte_values ↔ 0 <= v < 256.
Proof.
  unfold byte_values. rewrite list_elem_of_In, in_map_iff. split.
  - intros (i & <- & Hi). apply in_seq in Hi. lia.
  - intros Hv. exists (Z.to_nat v). split; [lia|]. apply in_seq. lia.
Qed.

Lemma is_bijection_count raw v :
  is_bijection raw = true → 0 <= v < 256 → count_occ Z.eq_dec raw v = 1%nat.
Proof.
  unfold is_bijection. rewrite !andb_true_iff. intros [_ H] Hv.
  rewrite forallb_forall in H.
  apply elem_of_byte_values, list_elem_of_In, H in Hv.
  by apply Nat.eqb_eq.
Qed.

Lemma is_bijection_NoDup raw : is_bijection raw = true → NoDup raw.
Proof.
  intros Hb. apply NoDup_ListNoDup, (NoDup_count_occ Z.eq_dec). intros v.
  destruct (decide (0 <= v < 256)) as [Hv|Hv].
  - by rewrite is_bijection_count.
  - assert (count_occ Z.eq_dec raw v = 0%nat) as ->; [|lia].
    apply count_occ_not_In. intros Hin. apply Hv.
    apply (is_bijection_range raw); [done|]. by apply list_elem_of_In.
Qed.

Lemma is_bijection_surj raw v :
  is_bijection raw = true → 0 <= v < 256 →
  ∃ i, (i < 256)%nat ∧ raw !! i = Some v.
Proof.
  intros Hb Hv. assert (v ∈ raw) as Hin.
  { apply list_elem_of_In, (count_occ_In Z.eq_dec).
    rewrite is_bijection_count by done. lia. }
  apply list_elem_of_lookup in Hin as [i Hi]. exists i. split; [|done].
  apply lookup_lt_Some in Hi. rewrite is_bijection_length in Hi; done.
Qed.

Lemma is_bijection_lookup raw i :
  is_bijection raw = true → (i < 256)%nat →
  ∃ v, raw !! i = Some v ∧ 0 <= v < 256.
Proof.
  intros Hb Hi. destruct (lookup_lt_is_Some_2 raw i) as [v Hv].
  { by rewrite is_bijection_length. }
  exists v. split; [done|]. apply (is_bijection_range raw); [done|].
  apply list_elem_of_lookup. eauto.
Qed.

(** *** The loop of [generateInverseSBox] *)

Lemma inv_loop_snoc sbox m n :
  foldl (inv_step sbox) m (seq 0 (S n))
  = inv_step sbox (foldl (inv_step sbox) m (seq 0 n)) n.
Proof. by rewrite seq_S, foldl_app. Qed.

(** After the first [n] iterations, an entry written by iteration [i < n]
    still holds [i], provided no later index carries the same value. *)
Lemma inv_loop_written sbox m n i v :
  NoDup sbox → (i < n)%nat → sbox !! i = Some v →
  foldl (inv_step sbox) m (seq 0 n) !! v = Some (Z.of_nat i).
Proof.
  intros Hnd. induction n as [|n IH]; intros Hi Hv; [lia|].
  rewrite inv_loop_snoc. unfold inv_step at 1.
  destruct (sbox !! n) as [w|] eqn:Hn.
  - destruct (decide (i = n)) as [->|Hne].
    + assert (w = v) as -> by congruence. apply lookup_insert_eq.
    + assert (w ≠ v) as Hwv.
      { intros ->. apply Hne. eapply NoDup_lookup; eauto. }
      rewrite lookup_insert_ne by done. apply IH; [lia|done].
  - apply IH; [|done]. destruct (decide (i = n)) as [->|]; [congruence|lia].
Qed.


Lemma inverse_of_forward sbox m i :
  is_bijection sbox = true → (i < 256)%nat →
  JS.index sbox (Z.of_nat i) ≫= (λ v, foldl (inv_step sbox) m (seq 0 256) !! v)
  = Some (Z.of_nat i).
Proof.
  intros Hb Hi. destruct (is_bijection_lookup sbox i Hb Hi) as (v & Hv & _).
  rewrite index_of_nat, Hv. cbn [mbind option_bind].
  apply inv_loop_written; auto using is_bijection_NoDup.
Qed.

Lemma forward_of_inverse sbox m i :
  is_bijection sbox = true → (i < 256)%nat →
  foldl (inv_step sbox) m (seq 0 256) !! Z.of_nat i ≫= JS.index sbox
  = Some (Z.of_nat i).
Proof.
  intros Hb Hi.
  destruct (is_bijection_surj sbox (Z.of_nat i) Hb) as (j & Hj & Hv); [lia|].
  rewrite (inv_loop_written sbox m 256 j (Z.of_nat i));
    auto using is_bijection_NoDup.
  cbn [mbind option_bind]. by rewrite index_of_nat.
Qed.

(** C2 (inverse-table law).  For every table that satisfies the bijectivity
    invariant and every index [i] in 0..255, the array built by
    [generateInverseSBox] (and likewise by [generateInverseSBoxFromArray])
    satisfies [inverse[forward[i]] = i] and [forward[inverse[i]] = i]. *)
Theorem inverse_table_law (sbox : list Z) (i : nat) :
  is_bijection sbox = true → (i < 256)%nat →
  (JS.index sbox (Z.of_nat i) ≫= (λ v, generateInverseSBox sbox !! v)
     = Some (Z.of_nat i)
   ∧ generateInverseSBox sbox !! Z.of_nat i ≫= JS.index sbox
     = Some (Z.of_nat i))
  ∧ (JS.index sbox (Z.of_nat i)
       ≫= (λ v, generateInverseSBoxFromArray sbox !! v) = Some (Z.of_nat i)
     ∧ generateInverseSBoxFromArray sbox !! Z.of_nat i ≫= JS.index sbox
       = Some (Z.of_nat i)).
Proof.
  intros Hb Hi. unfold generateInverseSBox, generateInverseSBoxFromArray.
  auto using inverse_of_forward, forward_of_inverse.
Qed.

Lemma swap_5_9_is_bijection : is_bijection swap_5_9 = true.
Proof. vm_compute. reflexivity. Qed.

Lemma inverse_table_law_witness :
  is_bijection swap_5_9 = true ∧ (5 < 256)%nat
  ∧ (JS.index swap_5_9 5 ≫= (λ v, generateInverseSBox swap_5_9 !! v) = Some 5
     ∧ generateInverseSBox swap_5_9 !! 5 ≫= JS.index swap_5_9 = Some 5)
  ∧ (JS.index swap_5_9 5
       ≫= (λ v, generateInverseSBoxFromArray swap_5_9 !! v) = Some 5
     ∧ generateInverseSBoxFromArray swap_5_9 !! 5 ≫= JS.index swap_5_9
       = Some 5).
Proof.
  split; [vm_compute; reflexivity|]. split; [lia|].
  apply (inverse_table_law swap_5_9 5); [vm_compute; reflexivity | lia].
Defined.

(** *** Validation at construction *)

Lemma construct_accepted raw t :
  construct raw = inr t →
  is_bijection raw = true ∧ t = mkTable raw (generateInverseSBox raw).
Proof.
  unfold construct, is_bijection.
  destruct (has_length_256 raw); [|discriminate].
  destruct (forallb in_byte_range raw); [|discriminate].
  destruct (forallb (occurs_once raw) byte_values); [|discriminate].
  cbn [negb andb]. intros [= <-]. done.
Qed.

Lemma construct_of_bijection raw :
  is_bijection raw = true →
  construct raw = inr (mkTable raw (generateInverseSBox raw)).
Proof.
  unfold construct, is_bijection. rewrite !andb_true_iff.
  intros [[-> ->] ->]. reflexivity.
Qed.

Lemma construct_rejected raw :
  is_bijection raw = false → ∃ reason, construct raw = inl (NotBijective reason).
Proof.
  intros Hb. destruct (construct raw) as [[reason]|t] eqn:Hc; [eauto|].
  apply construct_accepted in Hc as [Hc _]. congruence.
Qed.

Lemma construct_wrong_length raw :
  length raw ≠ 256%nat → construct raw = inl (NotBijective WrongLength).
Proof.
  intros Hlen. unfold construct, has_length_256.
  destruct (Nat.eqb_spec (length raw) 256); [done|reflexivity].
Qed.

Lemma malformed_not_bijection raw : malformed raw → is_bijection raw = false.
Proof.
  intros Hbad. destruct (is_bijection raw) eqn:Hb; [exfalso|done].
  destruct Hbad as [Hlen|[(v & Hin & Hv)|[(i & j & v & Hne & Hi & Hj)|(v & Hv & Hin)]]].
  - by apply Hlen, is_bijection_length.
  - by apply Hv, (is_bijection_range raw).
  - apply Hne. eapply NoDup_lookup; eauto using is_bijection_NoDup.
  - destruct (is_bijection_surj raw v Hb Hv) as (i & _ & Hi).
    apply Hin, list_elem_of_lookup. eauto.
Qed.

(** C3 (rejection completeness).  Table construction answers [NotBijective]
    for every raw input whose length is not 256, or that holds a value
    outside 0..255, or in which a value of 0..255 is repeated or missing;
    such an input is never accepted, so no inverse is derived from it. *)
Theorem rejection_completeness (raw : list Z) :
  malformed raw →
  (∃ reason, construct raw = inl (NotBijective reason))
  ∧ (∀ t, construct raw ≠ inr t).
Proof.
  intros Hbad. apply malformed_not_bijection in Hbad.
  destruct (construct_rejected raw Hbad) as [reason Hr].
  split; [eauto|]. intros t. rewrite Hr. discriminate.
Qed.

Lemma rejection_completeness_witness :
  malformed dup_3_7
  ∧ (∃ reason, construct dup_3_7 = inl (NotBijective reason))
  ∧ (∀ t, construct dup_3_7 ≠ inr t).
Proof.
  assert (malformed dup_3_7) as Hbad.
  { right. right. left. exists 3%nat, 7%nat, 10.
    split; [lia|]. split; reflexivity. }
  split; [exact Hbad|]. apply (rejection_completeness dup_3_7 Hbad).
Defined.

(** ** The substitution cipher *)

Import SubstitutionCipher.

Lemma backward_forward_byte raw b :
  is_bijection raw = true → 0 <= b < 256 →
  let t := mkTable raw (generateInverseSBox raw) in
  backward_byte t (forward_byte t b) = b.
Proof.
  intros Hb Hr t. unfold backward_byte, forward_byte, t, generateInverseSBox.
  cbn [forward inverse].
  pose proof (inverse_of_forward raw new_Array_256 (Z.to_nat b) Hb) as H.
  rewrite Z2Nat.id in H by lia. specialize (H ltac:(lia)). revert H.
  generalize (foldl (inv_step raw) new_Array_256 (seq 0 256)). intros inv H.
  destruct (JS.index raw b) as [v|]; [|discriminate].
  cbn [mbind option_bind JS.or_zero] in *. by rewrite H.
Qed.

Lemma forward_backward_byte raw b :
  is_bijection raw = true → 0 <= b < 256 →
  let t := mkTable raw (generateInverseSBox raw) in
  forward_byte t (backward_byte t b) = b.
Proof.
  intros Hb Hr t. unfold backward_byte, forward_byte, t, generateInverseSBox.
  cbn [forward inverse].
  pose proof (forward_of_inverse raw new_Array_256 (Z.to_nat b) Hb) as H.
  rewrite Z2Nat.id in H by lia. specialize (H ltac:(lia)). revert H.
  generalize (foldl (inv_step raw) new_Array_256 (seq 0 256)). intros inv H.
  destruct (inv !! b) as [v|]; [|discriminate].
  cbn [mbind option_bind JS.or_zero] in *. by rewrite H.
Qed.

Lemma pad_length_bounds n : (1 <= pad_length n <= BLOCK_SIZE)%nat.
Proof.
  unfold pad_length, BLOCK_SIZE.
  pose proof (Nat.mod_upper_bound n 16). lia.
Qed.

Lemma length_pad p : length (pad p) = (length p + pad_length (length p))%nat.
Proof. unfold pad. by rewrite length_app, length_replicate. Qed.


Lemma map_backward_forward raw p :
  is_bijection raw = true → Forall is_byte p →
  let t := mkTable raw (generateInverseSBox raw) in
  map (backward_byte t) (map (forward_byte t) p) = p.
Proof.
  intros Hb Hp t. induction Hp as [|b p Hbyte _ IH]; [done|].
  cbn [map]. f_equal; [|exact IH]. by apply backward_forward_byte.
Qed.

(** C1 (round-trip law).  For every table accepted by construction and every
    plaintext byte sequence [p], the empty one included, decoding what
    [encode] returned, with the original length [encode] returned, gives
    back [p]. *)
Theorem round_trip_law (raw : list Z) (t : PermutationTable) (p : list Z) :
  construct raw = inr t → Forall is_byte p →
  decode (fst (encode p t)) t (Some (snd (encode p t))) = inr p.
Proof.
  intros Hc Hp. apply construct_accepted in Hc as [Hb ->].
  unfold decode, encode, pad. cbn [fst snd]. f_equal.
  rewrite map_app, map_app, take_app_le by (by rewrite !length_map).
  rewrite take_ge by (by rewrite !length_map).
  by apply map_backward_forward.
Qed.

Lemma round_trip_law_witness :
  construct swap_5_9 = inr (mkTable swap_5_9 (generateInverseSBox swap_5_9))
  ∧ Forall is_byte [65; 5; 255]
  ∧ decode (fst (encode [65; 5; 255]
                   (mkTable swap_5_9 (generateInverseSBox swap_5_9))))
      (mkTable swap_5_9 (generateInverseSBox swap_5_9))
      (Some (snd (encode [65; 5; 255]
                    (mkTable swap_5_9 (generateInverseSBox swap_5_9)))))
    = inr [65; 5; 255].
Proof.
  assert (construct swap_5_9
          = inr (mkTable swap_5_9 (generateInverseSBox swap_5_9))) as Hc.
  { apply construct_of_bijection. vm_compute. reflexivity. }
  assert (Forall is_byte [65; 5; 255]) as Hp.
  { repeat constructor; unfold is_byte; lia. }
  split; [exact Hc|]. split; [exact Hp|].
  apply (round_trip_law swap_5_9 _ [65; 5; 255] Hc Hp).
Defined.

(** *** The fallback: removal of the padding from its last byte *)

Lemma replicate_snoc {A} (x : A) n : replicate (S n) x = replicate n x ++ [x].
Proof. induction n as [|n IH]; [done|]. cbn [replicate app] in *. by rewrite <- IH. Qed.

Lemma forallb_replicate k n : forallb (Z.eqb k) (replicate n k) = true.
Proof. induction n as [|n IH]; [done|]. cbn. by rewrite Z.eqb_refl. Qed.

Lemma unpad_pad p : unpad (pad p) = inr p.
Proof.
  unfold unpad. rewrite length_pad. unfold pad.
  pose proof (pad_length_bounds (length p)) as Hk. unfold BLOCK_SIZE in *.
  generalize dependent (pad_length (length p)). intros k Hk.
  destruct k as [|k]; [lia|].
  rewrite replicate_snoc at 1. rewrite app_assoc, last_snoc.
  destruct (Z.leb_spec (Z.of_nat (S k)) 0); [lia|].
  destruct (Z.ltb_spec (Z.of_nat 16) (Z.of_nat (S k))); [lia|]. cbn [orb].
  rewrite Nat2Z.id.
  replace (length p + S k - S k)%nat with (length p) by lia.
  rewrite drop_app_length, take_app_length, forallb_replicate.
  by destruct (Nat.leb_spec (S k) (length p + S k)); [|lia].
Qed.

Lemma pad_bytes p : Forall is_byte p → Forall is_byte (pad p).
Proof.
  intros Hp. unfold pad. apply Forall_app. split; [done|].
  apply Forall_replicate. pose proof (pad_length_bounds (length p)).
  unfold is_byte, BLOCK_SIZE in *. lia.
Qed.

(** Decoding without the original length recovers the plaintext as well; in
    particular the full extra block of a plaintext whose length is a
    multiple of the block size is stripped. *)
Lemma round_trip_fallback raw t p :
  construct raw = inr t → Forall is_byte p →
  decode (fst (encode p t)) t None = inr p.
Proof.
  intros Hc Hp. apply construct_accepted in Hc as [Hb ->].
  unfold decode, encode. cbn [fst].
  rewrite map_backward_forward by auto using pad_bytes. apply unpad_pad.
Qed.

(** The empty plaintext is encoded as one full block of padding. *)
Lemma encode_empty t :
  encode [] t = (replicate 16 (forward_byte t 16), 0%nat).
Proof. reflexivity. Qed.

(** ** The Encrypt action of the text tab *)

Import TextTab.

Lemma encryptTextEnhanced_empty service keyField :
  encryptTextEnhanced service [] keyField = Alerted PleaseEnterText.
Proof. reflexivity. Qed.

Lemma encryptTextEnhanced_blank_key service txt keyField :
  txt ≠ [] → JS.trim (key_or_default keyField) = [] →
  encryptTextEnhanced service txt keyField = Alerted PleaseEnterKey.
Proof.
  intros Htxt Hkey. unfold encryptTextEnhanced. rewrite Hkey.
  by destruct txt.
Qed.


(** ** The interactive demo *)

Import Demo.

Lemma demo_unit sbox c :
  is_bijection sbox = true →
  ∃ b, sbox !! N.to_nat (c mod 256)%N = Some b
       ∧ JS.fromCharCode (generateInverseSBox sbox !! b) = (c mod 256)%N.
Proof.
  intros Hb.
  assert (N.to_nat (c mod 256)%N < 256)%nat as Hlt.
  { pose proof (N.mod_upper_bound c 256). lia. }
  destruct (is_bijection_lookup sbox _ Hb Hlt) as (b & Hv & _).
  exists b. split; [done|]. unfold generateInverseSBox.
  rewrite (inv_loop_written sbox _ 256 (N.to_nat (c mod 256)%N) b);
    auto using is_bijection_NoDup.
  unfold JS.fromCharCode. generalize dependent (c mod 256)%N. intros x Hlt _.
  rewrite Z.mod_small by lia. by rewrite N_nat_Z, N2Z.id.
Qed.

Lemma demo_units_of sbox inv txt :
  (∀ c, ∃ b, sbox !! N.to_nat (c mod 256)%N = Some b
             ∧ JS.fromCharCode (inv !! b) = (c mod 256)%N) →
  ∃ ciph,
    Forall2 (λ c b, sbox !! N.to_nat (c mod 256)%N = Some b) txt ciph
    ∧ mapM id (encrypt_units (mkState sbox inv) txt) = Some ciph
    ∧ decrypt_units (mkState sbox inv) ciph = low_bytes txt.
Proof.
  intros Hunit. induction txt as [|c txt (ciph & Hf & Hm & Hd)].
  - exists []. split; [constructor|]. split; reflexivity.
  - destruct (Hunit c) as (b & Hc & Hdec). exists (b :: ciph).
    split; [by constructor|]. split.
    + unfold encrypt_units in *. cbn [map currentData_sbox] in *.
      apply mapM_Some. constructor; [exact Hc|]. by apply mapM_Some.
    + unfold decrypt_units, low_bytes in *.
      cbn [map inverseSBox] in *. by rewrite Hdec, Hd.
Qed.

Lemma demo_units sbox txt :
  is_bijection sbox = true →
  ∃ ciph,
    Forall2 (λ c b, sbox !! N.to_nat (c mod 256)%N = Some b) txt ciph
    ∧ mapM id (encrypt_units (updateUI sbox) txt) = Some ciph
    ∧ decrypt_units (updateUI sbox) ciph = low_bytes txt.
Proof.
  intros Hb. unfold updateUI. apply demo_units_of.
  intros c. by apply demo_unit.
Qed.

Lemma low_bytes_fixed txt :
  low_bytes txt = txt ↔ Forall (λ c, (c < 256)%N) txt.
Proof.
  unfold low_bytes. induction txt as [|c txt IH]; [done|]. cbn [map]. split.
  - intros [= Hc Ht]. constructor; [|by apply IH].
    rewrite <- Hc. by apply N.mod_upper_bound.
  - intros Hall. apply Forall_cons in Hall as [Hc Ht].
    rewrite N.mod_small by done. f_equal. by apply IH.
Qed.

(** C9, as the code has it.  With a bijective table current, [doCrypto] on a
    non-empty input substitutes every character through the table at index
    [charCode mod 256], and the string it computes as decryption is the
    input with every code unit [c] replaced by [c mod 256]; this string is
    the input exactly when every code unit is below 256.  The first
    revision assigns the string to the pane as text, so there it is what
    the pane shows; the second inserts it, as it is, between the tags of a
    [span] that it assigns as markup. *)
Theorem demo_low_bytes (sbox : list Z) (txt : list N) :
  is_bijection sbox = true → txt ≠ [] →
  ∃ ciph,
    Forall2 (λ c b, sbox !! N.to_nat (c mod 256)%N = Some b) txt ciph
    ∧ doCrypto (updateUI sbox) txt = Shown ciph (low_bytes txt)
    ∧ (doCrypto (updateUI sbox) txt = Shown ciph txt
       ↔ Forall (λ c, (c < 256)%N) txt)
    ∧ outDec_textContent (doCrypto (updateUI sbox) txt)
      = Some (TextContent (low_bytes txt))
    ∧ (outDec_textContent (doCrypto (updateUI sbox) txt)
       = Some (TextContent txt)
       ↔ Forall (λ c, (c < 256)%N) txt)
    ∧ outDec_innerHTML (doCrypto (updateUI sbox) txt)
      = Some (InnerHTML (dec_span_open ++ low_bytes txt ++ units "</span>")).
Proof.
  intros Hb Htxt. destruct (demo_units sbox txt Hb) as (ciph & Hf & Hm & Hd).
  exists ciph. split; [done|].
  assert (doCrypto (updateUI sbox) txt = Shown ciph (low_bytes txt)) as Hdo.
  { unfold doCrypto. destruct txt; [done|]. by rewrite Hm, Hd. }
  split; [done|]. rewrite Hdo. cbn [outDec_textContent outDec_innerHTML].
  rewrite <- low_bytes_fixed.
  split; [|split; [done|split; [|done]]].
  - split; [by intros [= ->] | by intros ->].
  - split; [by intros [= ->] | by intros ->].
Qed.

Lemma demo_low_bytes_witness :
  is_bijection swap_5_9 = true ∧ [72%N; 8364%N] ≠ []
  ∧ ∃ ciph,
      Forall2 (λ c b, swap_5_9 !! N.to_nat (c mod 256)%N = Some b)
        [72%N; 8364%N] ciph
      ∧ doCrypto (updateUI swap_5_9) [72%N; 8364%N]
        = Shown ciph (low_bytes [72%N; 8364%N])
      ∧ (doCrypto (updateUI swap_5_9) [72%N; 8364%N]
         = Shown ciph [72%N; 8364%N]
         ↔ Forall (λ c, (c < 256)%N) [72%N; 8364%N])
      ∧ outDec_textContent (doCrypto (updateUI swap_5_9) [72%N; 8364%N])
        = Some (TextContent (low_bytes [72%N; 8364%N]))
      ∧ (outDec_textContent (doCrypto (updateUI swap_5_9) [72%N; 8364%N])
         = Some (TextContent [72%N; 8364%N])
         ↔ Forall (λ c, (c < 256)%N) [72%N; 8364%N])
      ∧ outDec_innerHTML (doCrypto (updateUI swap_5_9) [72%N; 8364%N])
        = Some (InnerHTML (dec_span_open ++ low_bytes [72%N; 8364%N]
                             ++ units "</span>")).
Proof.
  assert (is_bijection swap_5_9 = true) as Hb by (vm_compute; reflexivity).
  assert ([72%N; 8364%N] ≠ []) as Hne by discriminate.
  split; [exact Hb|]. split; [exact Hne|].
  apply (demo_low_bytes swap_5_9 [72%N; 8364%N] Hb Hne).
Defined.

(** The claim of C9 fails at the empty input: every code unit of it is below
    256, yet [doCrypto] computes no decryption, and the panes get their hint
    text and not the input. *)
Lemma demo_empty_input :
  Forall (λ c, (c < 256)%N) []
  ∧ (∀ ciph, doCrypto (updateUI swap_5_9) [] ≠ Shown ciph (low_bytes []))
  ∧ outDec_textContent (doCrypto (updateUI swap_5_9) [])
    ≠ Some (TextContent [])
  ∧ outDec_innerHTML (doCrypto (updateUI swap_5_9) [])
    ≠ Some (InnerHTML (dec_span_open ++ [] ++ units "</span>")).
Proof.
  split; [constructor|]. split; [intros ciph; discriminate|].
  split; [discriminate|]. vm_compute. discriminate.
Qed.

(** ** Strings *)

Section Strings.
Import JS.

Implicit Types (s p : list ascii) (c : ascii).

Lemma trimStart_plain c s : plain c → JS.trimStart (c :: s) = c :: s.
Proof. unfold plain. intros H. cbn [JS.trimStart]. by rewrite H. Qed.

Lemma trimEnd_plain s c : plain c → JS.trimEnd (s ++ [c]) = s ++ [c].
Proof.
  intros H. unfold JS.trimEnd. rewrite rev_unit, trimStart_plain by done.
  cbn [rev]. by rewrite rev_involutive.
Qed.

Lemma trim_plain c s c' :
  plain c → plain c' → JS.trim (c :: s ++ [c']) = c :: s ++ [c'].
Proof.
  intros H H'. unfold JS.trim. rewrite trimStart_plain by done.
  by rewrite app_comm_cons, trimEnd_plain.
Qed.

Lemma trim_all_plain s : Forall plain s → JS.trim s = s.
Proof.
  intros Hs. destruct s as [|c s]; [reflexivity|].
  destruct (exists_last (l := c :: s)) as (s' & c' & Heq); [done|].
  assert (plain c') as Hc'.
  { rewrite Forall_forall in Hs. apply Hs. rewrite Heq. set_solver. }
  apply Forall_cons in Hs as [Hc _]. unfold JS.trim.
  rewrite trimStart_plain by done. rewrite Heq. by apply trimEnd_plain.
Qed.

Lemma startsWith_app p s : JS.startsWith (p ++ s) p = true.
Proof.
  induction p as [|c p IH]; [by destruct s|].
  cbn [app JS.startsWith]. by rewrite Ascii.eqb_refl, IH.
Qed.

Lemma replace_prefix p r s : JS.replace p r (p ++ s) = r ++ s.
Proof.
  assert (∀ x, JS.replace p r x
               = if JS.startsWith x p then r ++ drop (length p) x
                 else match x with
                      | c :: x' => c :: JS.replace p r x'
                      | [] => []
                      end) as Hunfold by (by intros []).
  by rewrite Hunfold, startsWith_app, drop_app_length.
Qed.

Lemma split_no_sep sep s : sep ∉ s → JS.split sep s = [s].
Proof.
  induction s as [|c s IH]; [done|]. intros Hnot. cbn [JS.split].
  destruct (Ascii.eqb_spec c sep) as [->|_]; [set_solver|].
  rewrite IH; [done|set_solver].
Qed.

Lemma split_app sep s1 s2 :
  sep ∉ s1 → JS.split sep (s1 ++ sep :: s2) = s1 :: JS.split sep s2.
Proof.
  induction s1 as [|c s1 IH]; intros Hnot; cbn [app JS.split].
  - by rewrite Ascii.eqb_refl.
  - destruct (Ascii.eqb_spec c sep) as [->|_]; [set_solver|].
    rewrite IH; [done|set_solver].
Qed.

Lemma plain_not_newline c : plain c → c ≠ "010"%char.
Proof. by intros H ->. Qed.

Lemma all_plain_no_newline s : Forall plain s → "010"%char ∉ s.
Proof.
  intros Hs Hin. rewrite Forall_forall in Hs.
  by apply Hs, plain_not_newline in Hin.
Qed.

Lemma remove_whitespace_plain s : Forall plain s → JS.remove_whitespace s = s.
Proof.
  unfold JS.remove_whitespace, plain. induction 1 as [|c s Hc _ IH]; [done|].
  cbn [List.filter]. by rewrite Hc, IH.
Qed.

(** *** Decimal digits *)

Ltac each_digit d H :=
  let C := fresh in
  assert (d = 0 ∨ d = 1 ∨ d = 2 ∨ d = 3 ∨ d = 4 ∨ d = 5 ∨ d = 6 ∨ d = 7
          ∨ d = 8 ∨ d = 9)%N as C by lia;
  clear H; repeat (destruct C as [C|C]); subst d.

Lemma decimal_plain c : is_decimal c → plain c.
Proof. intros (d & H & ->). each_digit d H; reflexivity. Qed.

Lemma decimal_no_sign c :
  is_decimal c → Ascii.eqb c "-" = false ∧ Ascii.eqb c "+" = false.
Proof. intros (d & H & ->). each_digit d H; split; reflexivity. Qed.

Lemma decimal_no_x c :
  is_decimal c → (Ascii.eqb c "x" || Ascii.eqb c "X") = false.
Proof. intros (d & H & ->). each_digit d H; reflexivity. Qed.

Lemma digit_in_radix_10 d :
  (d < 10)%N → JS.digit_in_radix 10 (JS.digit_char d) = Some (Z.of_N d).
Proof. intros H. each_digit d H; reflexivity. Qed.

Lemma parse_digits_snoc s d acc :
  Forall is_decimal s → (d < 10)%N →
  JS.parse_digits 10 (s ++ [JS.digit_char d]) acc
  = Some (10 * JS.or_zero (JS.parse_digits 10 s acc) + Z.of_N d).
Proof.
  intros Hs Hd. revert acc.
  induction Hs as [|c s (e & He & ->) _ IH]; intros acc.
  - cbn [app JS.parse_digits]. by rewrite digit_in_radix_10.
  - cbn [app JS.parse_digits]. rewrite digit_in_radix_10 by done. apply IH.
Qed.

Lemma digits_fuel_spec fuel n :
  (n < 2 ^ N.of_nat fuel)%N →
  Forall is_decimal (JS.digits_fuel fuel n)
  ∧ JS.or_zero (JS.parse_digits 10 (JS.digits_fuel fuel n) None) = Z.of_N n.
Proof.
  revert n. induction fuel as [|fuel IH]; intros n Hn.
  - cbn in Hn. assert (n = 0%N) as -> by lia. by split.
  - cbn [JS.digits_fuel].
    assert (n mod 10 < 10)%N as Hmod by (apply N.mod_upper_bound; lia).
    assert (Forall is_decimal [JS.digit_char (n mod 10)]) as Hlast.
    { repeat constructor. by exists (n mod 10)%N. }
    destruct (N.ltb_spec n 10) as [Hsmall|Hbig].
    + cbn [app]. split; [done|]. cbn [JS.parse_digits].
      rewrite digit_in_radix_10 by done. cbn [JS.or_zero].
      rewrite N.mod_small by done. lia.
    + destruct (IH (n / 10)%N) as [Hdig Hval].
      { rewrite Nat2N.inj_succ, N.pow_succ_r' in Hn.
        apply N.Div0.div_lt_upper_bound. lia. }
      split; [by apply Forall_app|].
      rewrite parse_digits_snoc by done. cbn [JS.or_zero]. rewrite Hval.
      pose proof (N.div_mod n 10). lia.
Qed.

Lemma Number_toString_fuel n : (n < 2 ^ N.of_nat (S (N.to_nat (N.log2 n))))%N.
Proof.
  rewrite Nat2N.inj_succ, N2Nat.id. destruct n as [|p]; [done|].
  apply N.log2_spec. lia.
Qed.

Lemma Number_toString_decimal n : Forall is_decimal (JS.Number_toString n).
Proof. apply digits_fuel_spec, Number_toString_fuel. Qed.

Lemma Number_toString_snoc n :
  ∃ s d, (d < 10)%N ∧ Forall is_decimal s
         ∧ JS.Number_toString n = s ++ [JS.digit_char d]
         ∧ 10 * JS.or_zero (JS.parse_digits 10 s None) + Z.of_N d = Z.of_N n.
Proof.
  unfold JS.Number_toString.
  pose proof (Number_toString_fuel n) as Hfuel.
  destruct (digits_fuel_spec _ n Hfuel) as [Hdig Hval]. revert Hdig Hval.
  generalize (N.to_nat (N.log2 n)). intros f. cbn [JS.digits_fuel].
  intros Hdig Hval. apply Forall_app in Hdig as [Hs _].
  assert (n mod 10 < 10)%N as Hmod by (apply N.mod_upper_bound; lia).
  eexists _, _. split; [exact Hmod|]. split; [exact Hs|]. split; [done|].
  by rewrite parse_digits_snoc in Hval.
Qed.

(** [parseInt] reads back the decimal text of a number. *)
Lemma parseInt_Number_toString n :
  JS.parseInt (JS.Number_toString n) None = Some (Z.of_N n).
Proof.
  destruct (Number_toString_snoc n) as (s & d & Hd & Hs & Heq & Hval).
  pose proof (Number_toString_decimal n) as Hall.
  assert (JS.parse_digits 10 (JS.Number_toString n) None = Some (Z.of_N n))
    as Hparse by (by rewrite Heq, parse_digits_snoc, Hval).
  revert Hall Hparse. generalize (JS.Number_toString n). intros text Hall Hp.
  unfold JS.parseInt. destruct text as [|c text]; [discriminate|].
  apply Forall_cons in Hall as [Hc Hall].
  rewrite trimStart_plain by (by apply decimal_plain).
  destruct (decimal_no_sign c Hc) as [-> ->].
  destruct text as [|x text].
  - cbn [default]. rewrite Hp. cbn. by destruct n.
  - apply Forall_cons in Hall as [Hx _]. rewrite (decimal_no_x x Hx).
    rewrite andb_false_r. cbn [default]. rewrite Hp. cbn. by destruct n.
Qed.

End Strings.

(** ** The cipher file *)

Lemma hex_upper_plain c : is_hex_upper c = true → JS.plain c.
Proof.
  destruct c as [[] [] [] [] [] [] [] []]; (discriminate || reflexivity).
Qed.

Lemma hex_upper_toUpperCase c :
  is_hex_upper c = true → JS.toUpperCase_char c = c.
Proof.
  destruct c as [[] [] [] [] [] [] [] []]; (discriminate || reflexivity).
Qed.

Lemma is_cipher_hex_chars h :
  is_cipher_hex h = true → h ≠ [] ∧ Forall (λ c, is_hex_upper c = true) h.
Proof.
  unfold is_cipher_hex, hex_test. rewrite !andb_true_iff.
  intros [[Hh _] _]. destruct h as [|c h]; [discriminate|]. split; [done|].
  apply Forall_forall. intros x Hx. rewrite forallb_forall in Hh.
  by apply Hh, list_elem_of_In.
Qed.

Lemma cipher_hex_plain h : is_cipher_hex h = true → Forall JS.plain h.
Proof.
  intros Hh. apply is_cipher_hex_chars in Hh as [_ Hh].
  eapply Forall_impl; [exact Hh|]. apply hex_upper_plain.
Qed.

Lemma cipher_hex_cleaned h :
  is_cipher_hex h = true → JS.toUpperCase (JS.remove_whitespace h) = h.
Proof.
  intros Hh. rewrite remove_whitespace_plain by (by apply cipher_hex_plain).
  apply is_cipher_hex_chars in Hh as [_ Hh]. unfold JS.toUpperCase.
  induction Hh as [|c h Hc _ IH]; [done|]. cbn [map].
  by rewrite hex_upper_toUpperCase, IH.
Qed.

(** The two lines of a downloaded file, read by the loop of the decrypt
    routine. *)
Lemma header_lines n h o text :
  is_cipher_hex h = true →
  foldl header_step (o, text)
    [JS.lit "LENGTH:" ++ JS.Number_toString n; JS.lit "HEX:" ++ h]
  = (Some (Z.of_N n), h).
Proof.
  intros Hh. cbn [foldl]. unfold header_step at 2.
  rewrite startsWith_app, replace_prefix. cbn [app snd].
  rewrite trim_all_plain, parseInt_Number_toString.
  2:{ eapply Forall_impl; [apply Number_toString_decimal|].
      apply decimal_plain. }
  unfold header_step.
  assert (JS.startsWith (JS.lit "HEX:" ++ h) (JS.lit "LENGTH:") = false)
    as -> by reflexivity.
  rewrite startsWith_app, replace_prefix. cbn [app fst].
  by rewrite trim_all_plain by (by apply cipher_hex_plain).
Qed.

(** C10 (the cipher file round-trips).  For a cipher hex string [h] (upper
    case hex digits, two per byte, at least 16 bytes) and an original length
    [n] that is not 0, the download handler writes [LENGTH:n], a line break
    and [HEX:h], and the decrypt routine, given that text as its input, goes
    on with [originalLength = n] and the hex payload [h], whatever its
    hidden length field holds. *)
Theorem cipher_file_round_trip (h : list ascii) (n : N)
    (lengthField : list ascii) :
  is_cipher_hex h = true → (0 < n)%N →
  ∃ content,
    download_content (Some h) (Some n) = Some content
    ∧ content = JS.lit "LENGTH:" ++ JS.Number_toString n
                  ++ "010"%char :: JS.lit "HEX:" ++ h
    ∧ parse_cipher_input content lengthField
      = inr (mkCipherInput (Some (Z.of_N n)) h (hex_bytes h)).
Proof.
  intros Hh Hn.
  exists (JS.lit "LENGTH:" ++ JS.Number_toString n
            ++ "010"%char :: JS.lit "HEX:" ++ h).
  split; [|split; [reflexivity|]].
  { destruct (is_cipher_hex_chars h Hh) as [Hne _].
    destruct h; [done|]. destruct n; [lia|]. reflexivity. }
  rewrite (app_assoc (JS.lit "LENGTH:")).
  set (line1 := JS.lit "LENGTH:" ++ JS.Number_toString n).
  set (line2 := JS.lit "HEX:" ++ h).
  assert (Forall JS.plain line1) as Hp1.
  { apply Forall_app. split; [by repeat constructor|].
    eapply Forall_impl; [apply Number_toString_decimal|]. apply decimal_plain. }
  assert (Forall JS.plain line2) as Hp2.
  { apply Forall_app. split; [by repeat constructor|].
    by apply cipher_hex_plain. }
  unfold parse_cipher_input.
  assert (JS.trim (line1 ++ "010"%char :: line2) = line1 ++ "010"%char :: line2)
    as ->.
  { destruct (is_cipher_hex_chars h Hh) as [Hne Hall].
    destruct (exists_last Hne) as (h' & c & ->).
    apply Forall_app in Hall as [_ Hc]. apply Forall_cons in Hc as [Hc _].
    assert (line1 ++ "010"%char :: line2
            = "L"%char :: (JS.lit "ENGTH:" ++ JS.Number_toString n
                             ++ "010"%char :: JS.lit "HEX:" ++ h') ++ [c])
      as ->.
    { unfold line1, line2. cbn [JS.lit list_ascii_of_string app].
      do 7 f_equal. by rewrite <- app_assoc. }
    apply trim_plain; [reflexivity|by apply hex_upper_plain]. }
  assert (JS.startsWith (line1 ++ "010"%char :: line2) (JS.lit "LENGTH:") = true)
    as ->.
  { unfold line1. rewrite <- app_assoc. apply startsWith_app. }
  rewrite split_app, split_no_sep by (by apply all_plain_no_newline).
  subst line1 line2. rewrite (header_lines n h _ _ Hh).
  cbn [JS.lit list_ascii_of_string app].
  rewrite cipher_hex_cleaned by done. fold (is_cipher_hex h). by rewrite Hh.
Qed.

Lemma cipher_file_round_trip_witness :
  is_cipher_hex (JS.lit "00112233445566778899AABBCCDDEEFF") = true
  ∧ (0 < 5)%N
  ∧ ∃ content,
      download_content (Some (JS.lit "00112233445566778899AABBCCDDEEFF"))
        (Some 5%N) = Some content
      ∧ content = JS.lit "LENGTH:" ++ JS.Number_toString 5
                    ++ "010"%char :: JS.lit "HEX:"
                    ++ JS.lit "00112233445566778899AABBCCDDEEFF"
      ∧ parse_cipher_input content (JS.lit "17")
        = inr (mkCipherInput (Some (Z.of_N 5))
                 (JS.lit "00112233445566778899AABBCCDDEEFF")
                 (hex_bytes (JS.lit "00112233445566778899AABBCCDDEEFF"))).
Proof.
  assert (is_cipher_hex (JS.lit "00112233445566778899AABBCCDDEEFF") = true)
    as Hh by (vm_compute; reflexivity).
  assert (0 < 5)%N as Hn by lia.
  split; [exact Hh|]. split; [exact Hn|].
  apply (cipher_file_round_trip _ 5%N (JS.lit "17") Hh Hn).
Defined.

(** The same file, evaluated: the bytes the request will carry. *)
Example cipher_file_example :
  parse_cipher_input
    (JS.lit "LENGTH:5" ++ "010"%char
       :: JS.lit "HEX:00112233445566778899AABBCCDDEEFF") []
  = inr (mkCipherInput (Some 5)
           (JS.lit "00112233445566778899AABBCCDDEEFF")
           [0; 17; 34; 51; 68; 85; 102; 119; 136; 153; 170; 187; 204; 221;
            238; 255]).
Proof. vm_compute. reflexivity. Qed.

(** Without a length the file is the bare hex text, and the length then
    comes from the hidden field. *)
Example cipher_file_without_length :
  download_content (Some (JS.lit "00112233445566778899AABBCCDDEEFF")) (Some 0%N)
  = Some (JS.lit "00112233445566778899AABBCCDDEEFF")
  ∧ parse_cipher_input (JS.lit "00112233445566778899AABBCCDDEEFF")
      (JS.lit "17")
    = inr (mkCipherInput (Some 17)
             (JS.lit "00112233445566778899AABBCCDDEEFF")
             (hex_bytes (JS.lit "00112233445566778899AABBCCDDEEFF"))).
Proof. split; vm_compute; reflexivity. Qed.

(** ** Metric comparison *)

Section Comparator.
Import Binary64 MetricComparator.

(** *** Comparisons of numbers *)

Lemma SFcompare_swap x y :
  SFcompare y x = CompOpp <$> SFcompare x y.
Proof.
  destruct x as [sx|sx| |sx mx ex], y as [sy|sy| |sy my ey];
    cbn [SFcompare fmap option_fmap option_map];
    try reflexivity;
    try (destruct sx; reflexivity); try (destruct sy; reflexivity);
    try (destruct sx, sy; reflexivity).
  change (Pos.compare_cont Eq) with Pos.compare.
  rewrite (Z.compare_antisym ey ex), (Pos.compare_antisym my mx).
  destruct sx, sy, (ey ?= ex)%Z, (my ?= mx)%positive; reflexivity.
Qed.

Lemma ltb_asym x y : ltb x y = true → ltb y x = false.
Proof.
  unfold ltb, SFltb. rewrite (SFcompare_swap x y).
  by destruct (SFcompare x y) as [[| |]|].
Qed.

Lemma ltb_nan x y : is_nan x = true ∨ is_nan y = true → ltb x y = false.
Proof. by intros [H|H]; destruct x, y. Qed.

Lemma deviation_nan x : is_nan x = true → is_nan (abs (sub x half)) = true.
Proof. by destruct x. Qed.

Lemma ltb_or0_l x y : is_nan x = false → ltb (or0 x) y = ltb x y.
Proof. intros Hx. by destruct x, y. Qed.

Lemma ltb_or0_r x y : is_nan y = false → ltb x (or0 y) = ltb x y.
Proof. intros Hy. by destruct x, y. Qed.

(** *** The order of the numbers is the order of their values *)

Lemma digits2_pos_bounds m :
  2 ^ (Zpos (digits2_pos m) - 1) <= Zpos m < 2 ^ Zpos (digits2_pos m).
Proof.
  induction m as [m IH|m IH|]; cbn [digits2_pos]; [| |by vm_compute].
  - rewrite Pos2Z.inj_succ, Z.pow_succ_r by lia.
    replace (Z.succ (Zpos (digits2_pos m)) - 1)
      with (Z.succ (Zpos (digits2_pos m) - 1)) by lia.
    rewrite Z.pow_succ_r by lia. lia.
  - rewrite Pos2Z.inj_succ, Z.pow_succ_r by lia.
    replace (Z.succ (Zpos (digits2_pos m)) - 1)
      with (Z.succ (Zpos (digits2_pos m) - 1)) by lia.
    rewrite Z.pow_succ_r by lia. lia.
Qed.

(** A valid finite number has an exponent from -1074 on and a mantissa
    below 2^53, of full width unless the exponent is the smallest. *)
Lemma valid_finite s m e :
  valid (S754_finite s m e) = true →
  -1074 <= e ∧ Zpos m < 2 ^ 53 ∧ (-1074 < e → 2 ^ 52 <= Zpos m).
Proof.
  unfold valid, valid_binary, bounded, canonical_mantissa, fexp, emin, prec,
    emax.
  intros H. apply andb_prop in H as [H _]. apply Z.eqb_eq in H.
  pose proof (digits2_pos_bounds m) as [Hlo Hhi].
  set (d := Zpos (digits2_pos m)) in *.
  assert (d <= 53 ∧ -1074 <= e ∧ (-1074 < e → d = 53)) as (Hd & He & Hn)
    by lia.
  split; [done|]. split.
  - eapply Z.lt_le_trans; [exact Hhi|]. apply Z.pow_le_mono_r; lia.
  - intros Hgt. rewrite (Hn Hgt) in Hlo. exact Hlo.
Qed.

Lemma value_scaled x v :
  finite x v → (v == inject_Z (scaled x) * 2 ^ (-1074))%Q.
Proof.
  intros (Hv & w & Hx & Hw). rewrite <- Hw. clear v Hw.
  destruct x as [s|s| |s m e]; try discriminate.
  - injection Hx as <-. cbn [scaled]. ring.
  - injection Hx as <-. cbn [scaled].
    apply valid_finite in Hv as (He & _ & _).
    rewrite inject_Z_mult, Zpower_Qpower by lia.
    replace e with ((e + 1074) + -1074) at 1 by lia.
    rewrite Qpower_plus by discriminate. change (inject_Z 2) with 2%Q. ring.
Qed.

Lemma scaled_sign s m e :
  -1074 <= e →
  0 < Zpos m * 2 ^ (e + 1074)
  ∧ scaled (S754_finite s m e)
    = (if s then - (Zpos m * 2 ^ (e + 1074)) else Zpos m * 2 ^ (e + 1074)).
Proof.
  intros He. split.
  - apply Z.mul_pos_pos; [lia|]. apply Z.pow_pos_nonneg; lia.
  - cbn [scaled]. destruct s; cbn [cond_Zopp]; lia.
Qed.

Lemma exponent_decides m1 m2 e1 e2 :
  -1074 <= e1 → e1 < e2 → m1 < 2 ^ 53 → 2 ^ 52 <= m2 →
  m1 * 2 ^ (e1 + 1074) < m2 * 2 ^ (e2 + 1074).
Proof.
  intros He1 He12 Hm1 Hm2.
  replace (e2 + 1074) with ((e1 + 1074) + (e2 - e1)) by lia.
  rewrite (Z.pow_add_r 2 (e1 + 1074) (e2 - e1)) by lia.
  assert (0 < 2 ^ (e1 + 1074)) as Hp by (apply Z.pow_pos_nonneg; lia).
  assert (2 ^ 1 <= 2 ^ (e2 - e1)) as Hd by (apply Z.pow_le_mono_r; lia).
  change (2 ^ 1) with 2 in Hd. change (2 ^ 53) with (2 ^ 52 * 2) in Hm1.
  apply Z.lt_le_trans with (2 ^ 52 * 2 * 2 ^ (e1 + 1074)).
  - by apply Z.mul_lt_mono_pos_r.
  - rewrite (Z.mul_comm (2 ^ (e1 + 1074))), Z.mul_assoc.
    apply Z.mul_le_mono_nonneg_r; [lia|].
    apply Z.mul_le_mono_nonneg; lia.
Qed.

Lemma compare_scaled x y vx vy :
  finite x vx → finite y vy →
  SFcompare x y = Some (scaled x ?= scaled y).
Proof.
  intros (Hx & wx & Hvx & _) (Hy & wy & Hvy & _).
  destruct x as [sx|sx| |sx mx ex], y as [sy|sy| |sy my ey];
    try discriminate; clear Hvx Hvy.
  - reflexivity.
  - apply valid_finite in Hy as (He & _ & _).
    destruct (scaled_sign sy my ey He) as [Hp ->].
    cbn [SFcompare scaled]. f_equal. symmetry. destruct sy.
    + apply Z.compare_gt_iff. lia.
    + apply Z.compare_lt_iff. lia.
  - apply valid_finite in Hx as (He & _ & _).
    destruct (scaled_sign sx mx ex He) as [Hp ->].
    cbn [SFcompare scaled]. f_equal. symmetry. destruct sx.
    + apply Z.compare_lt_iff. lia.
    + apply Z.compare_gt_iff. lia.
  - apply valid_finite in Hx as (Hex & Hmx & Hnx).
    apply valid_finite in Hy as (Hey & Hmy & Hny).
    destruct (scaled_sign sx mx ex Hex) as [Hpx ->].
    destruct (scaled_sign sy my ey Hey) as [Hpy ->].
    assert (ex < ey → Zpos mx * 2 ^ (ex + 1074) < Zpos my * 2 ^ (ey + 1074))
      as Hlt by (intros Hc; apply exponent_decides; auto with zarith).
    assert (ey < ex → Zpos my * 2 ^ (ey + 1074) < Zpos mx * 2 ^ (ex + 1074))
      as Hgt by (intros Hc; apply exponent_decides; auto with zarith).
    assert (ex = ey → (Zpos mx * 2 ^ (ex + 1074) ?= Zpos my * 2 ^ (ey + 1074))
                      = (Zpos mx ?= Zpos my)) as Heq.
    { intros ->. symmetry. apply Zmult_compare_compat_r.
      apply Z.lt_gt, Z.pow_pos_nonneg; lia. }
    cbn [SFcompare].
    change (Pos.compare_cont Eq mx my) with (Zpos mx ?= Zpos my).
    f_equal. symmetry. destruct sx, sy.
    + rewrite Z.compare_opp.
      destruct (Z.compare_spec ex ey) as [He|Hc|Hc].
      * rewrite Z.compare_antisym, (Heq He). reflexivity.
      * apply Z.compare_gt_iff. by apply Hlt.
      * apply Z.compare_lt_iff. by apply Hgt.
    + apply Z.compare_lt_iff. lia.
    + apply Z.compare_gt_iff. lia.
    + destruct (Z.compare_spec ex ey) as [He|Hc|Hc].
      * by apply Heq.
      * apply Z.compare_lt_iff. by apply Hlt.
      * apply Z.compare_gt_iff. by apply Hgt.
Qed.

Lemma ltb_scaled x y vx vy :
  finite x vx → finite y vy → ltb x y = (scaled x <? scaled y).
Proof.
  intros Hx Hy. unfold ltb, SFltb, Z.ltb.
  by rewrite (compare_scaled x y vx vy Hx Hy).
Qed.

(** On finite numbers [<] is the order of the exact values. *)
Lemma ltb_value x y vx vy :
  finite x vx → finite y vy →
  (ltb x y = true ↔ (vx < vy)%Q)
  ∧ (ltb x y = false ∧ ltb y x = false ↔ (vx == vy)%Q).
Proof.
  intros Hx Hy.
  rewrite (ltb_scaled x y vx vy Hx Hy), (ltb_scaled y x vy vx Hy Hx).
  pose proof (value_scaled x vx Hx) as Hvx.
  pose proof (value_scaled y vy Hy) as Hvy.
  assert (0 < 2 ^ (-1074))%Q as Hc by (by apply Qpower_0_lt).
  set (c := (2 ^ (-1074))%Q) in *.
  assert (∀ a b : Z, (a < b)%Z → (inject_Z a * c < inject_Z b * c)%Q) as Hlt.
  { intros a b H. apply Qmult_lt_compat_r; [done|]. by rewrite <- Zlt_Qlt. }
  rewrite Z.ltb_lt, !Z.ltb_ge.
  destruct (Z.lt_trichotomy (scaled x) (scaled y)) as [Hl|[He|Hg]].
  - apply Hlt in Hl as Hq.
    set (X := (inject_Z (scaled x) * c)%Q) in *.
    set (Y := (inject_Z (scaled y) * c)%Q) in *.
    split; split; try lia; intros; lra.
  - rewrite He in *.
    set (Y := (inject_Z (scaled y) * c)%Q) in *.
    split; split; try lia; intros; lra.
  - apply Hlt in Hg as Hq.
    set (X := (inject_Z (scaled x) * c)%Q) in *.
    set (Y := (inject_Z (scaled y) * c)%Q) in *.
    split; split; try lia; intros; lra.
Qed.

(** *** Verdicts *)

Lemma three_way_swap x y : three_way y x = swap_verdict (three_way x y).
Proof.
  unfold three_way. destruct (ltb x y) eqn:Hxy.
  - by rewrite (ltb_asym _ _ Hxy).
  - by destruct (ltb y x).
Qed.

Lemma three_way_cases x y :
  (three_way x y = ABetter ↔ ltb x y = true)
  ∧ (three_way x y = BBetter ↔ ltb y x = true)
  ∧ (three_way x y = Tie ↔ ltb x y = false ∧ ltb y x = false).
Proof.
  unfold three_way. destruct (ltb x y) eqn:Hxy.
  - rewrite (ltb_asym _ _ Hxy). repeat split; try done. by intros [? _].
  - destruct (ltb y x); repeat split; try done. by intros [_ ?].
Qed.

(** On finite numbers the three-way comparison is the comparison of the
    exact values. *)
Lemma three_way_value x y vx vy :
  finite x vx → finite y vy →
  (three_way x y = ABetter ↔ (vx < vy)%Q)
  ∧ (three_way x y = BBetter ↔ (vy < vx)%Q)
  ∧ (three_way x y = Tie ↔ (vx == vy)%Q).
Proof.
  intros Hx Hy.
  destruct (three_way_cases x y) as (HA & HB & HT).
  destruct (ltb_value x y vx vy Hx Hy) as [Hlt Heq].
  destruct (ltb_value y x vy vx Hy Hx) as [Hgt _].
  rewrite HA, HB, HT, Hlt, Hgt, Heq. done.
Qed.

Lemma three_way_nan x y :
  is_nan x = true ∨ is_nan y = true → three_way x y = Tie.
Proof.
  intros H. unfold three_way.
  rewrite (ltb_nan x y H), (ltb_nan y x); [done|tauto].
Qed.

Lemma verdict_higher a b : verdict "higher" a b = three_way b a.
Proof.
  unfold verdict, comparison_flags, three_way, gtb.
  change (String.eqb "higher" "higher") with true.
  cbv iota. by destruct (ltb b a), (ltb a b).
Qed.

Lemma verdict_lower a b : verdict "lower" a b = three_way a b.
Proof.
  unfold verdict, comparison_flags, three_way.
  change (String.eqb "lower" "higher") with false.
  change (String.eqb "lower" "lower") with true.
  cbv iota. by destruct (ltb a b), (ltb b a).
Qed.

Lemma verdict_closer a b :
  verdict "closer_to_0.5" a b
  = three_way (abs (sub a half)) (abs (sub b half)).
Proof.
  unfold verdict, comparison_flags, three_way.
  change (String.eqb "closer_to_0.5" "higher") with false.
  change (String.eqb "closer_to_0.5" "lower") with false.
  change (String.eqb "closer_to_0.5" "closer_to_0.5") with true.
  cbv iota zeta.
  by destruct (ltb (abs (sub a half)) (abs (sub b half))),
       (ltb (abs (sub b half)) (abs (sub a half))).
Qed.

Lemma verdict_other compareType a b :
  compareType ≠ "higher"%string → compareType ≠ "lower"%string →
  compareType ≠ "closer_to_0.5"%string → verdict compareType a b = Tie.
Proof.
  intros H1 H2 H3. unfold verdict, comparison_flags.
  apply String.eqb_neq in H1, H2, H3. by rewrite H1, H2, H3.
Qed.

Lemma verdict_nan compareType a b :
  is_nan a = true ∨ is_nan b = true → verdict compareType a b = Tie.
Proof.
  intros H.
  destruct (decide (compareType = "higher"%string)) as [->|H1].
  { rewrite verdict_higher. apply three_way_nan. tauto. }
  destruct (decide (compareType = "lower"%string)) as [->|H2].
  { rewrite verdict_lower. by apply three_way_nan. }
  destruct (decide (compareType = "closer_to_0.5"%string)) as [->|H3].
  { rewrite verdict_closer. apply three_way_nan.
    destruct H as [H|H]; [left|right]; by apply deviation_nan. }
  by apply verdict_other.
Qed.

Lemma row_verdict_render label a b compareType target :
  row_verdict (renderComparisonRow label a b compareType target)
  = verdict compareType a b.
Proof.
  unfold row_verdict, renderComparisonRow, verdict.
  by destruct (comparison_flags compareType a b).
Qed.

(** C4, as the code has it.  The verdict of a comparison row follows the
    direction it is called with.  Under "higher" the number with the
    strictly greater value wins, under "lower" the one with the strictly
    smaller value, and equal values tie.  Under "closer_to_0.5" the two
    deviations [Math.abs(x - 0.5)] are computed in binary64, the
    subtraction rounded to the nearest number; the side whose computed
    deviation is strictly smaller wins, and the row is a tie when neither
    is: on finite deviations, exactly when their values are equal.  A row
    with NaN on a side is a tie. *)
Theorem per_metric_verdict_rule (label target compareType : string)
    (a b : number) :
  row_verdict (renderComparisonRow label a b compareType target)
  = verdict compareType a b
  ∧ (∀ va vb, finite a va → finite b vb →
       ((verdict "higher" a b = ABetter ↔ vb < va)
        ∧ (verdict "higher" a b = BBetter ↔ va < vb)
        ∧ (verdict "higher" a b = Tie ↔ vb == va))
       ∧ ((verdict "lower" a b = ABetter ↔ va < vb)
          ∧ (verdict "lower" a b = BBetter ↔ vb < va)
          ∧ (verdict "lower" a b = Tie ↔ va == vb)))%Q
  ∧ ((verdict "closer_to_0.5" a b = ABetter
      ↔ ltb (abs (sub a half)) (abs (sub b half)) = true)
     ∧ (verdict "closer_to_0.5" a b = BBetter
        ↔ ltb (abs (sub b half)) (abs (sub a half)) = true)
     ∧ (verdict "closer_to_0.5" a b = Tie
        ↔ ltb (abs (sub a half)) (abs (sub b half)) = false
          ∧ ltb (abs (sub b half)) (abs (sub a half)) = false))
  ∧ (∀ da db, finite (abs (sub a half)) da → finite (abs (sub b half)) db →
       (verdict "closer_to_0.5" a b = ABetter ↔ da < db)
       ∧ (verdict "closer_to_0.5" a b = BBetter ↔ db < da)
       ∧ (verdict "closer_to_0.5" a b = Tie ↔ da == db))%Q
  ∧ (is_nan a = true ∨ is_nan b = true → verdict compareType a b = Tie).
Proof.
  split; [apply row_verdict_render|].
  rewrite verdict_higher, verdict_lower, verdict_closer.
  split; [|split; [apply three_way_cases|split; [|apply verdict_nan]]].
  - intros va vb Ha Hb. split; by apply three_way_value.
  - intros da db Ha Hb. by apply three_way_value.
Qed.

(** The rule at 0.49 against 0.52 (scenario 4 of the specification): the
    computed deviations are the numbers nearest to 0.01 and 0.02. *)
Lemma per_metric_verdict_rule_witness :
  finite (abs (sub (ratio 49 100) half))
    (5764607523034240 # 576460752303423488)
  ∧ finite (abs (sub (ratio 52 100) half))
      (5764607523034240 # 288230376151711744)
  ∧ ((verdict "closer_to_0.5" (ratio 49 100) (ratio 52 100) = ABetter
      ↔ (5764607523034240 # 576460752303423488)
        < (5764607523034240 # 288230376151711744))
     ∧ (verdict "closer_to_0.5" (ratio 49 100) (ratio 52 100) = BBetter
        ↔ (5764607523034240 # 288230376151711744)
          < (5764607523034240 # 576460752303423488))
     ∧ (verdict "closer_to_0.5" (ratio 49 100) (ratio 52 100) = Tie
        ↔ (5764607523034240 # 576460752303423488)
          == (5764607523034240 # 288230376151711744)))%Q.
Proof.
  assert (finite (abs (sub (ratio 49 100) half))
            (5764607523034240 # 576460752303423488)) as Ha.
  { split; [reflexivity|]. eexists. split; [reflexivity|]. by vm_compute. }
  assert (finite (abs (sub (ratio 52 100) half))
            (5764607523034240 # 288230376151711744)) as Hb.
  { split; [reflexivity|]. eexists. split; [reflexivity|]. by vm_compute. }
  split; [exact Ha|]. split; [exact Hb|].
  exact (proj1 (proj2 (proj2 (proj2 (per_metric_verdict_rule "SAC" "~0.5"
                                       "closer_to_0.5" (ratio 49 100)
                                       (ratio 52 100))))) _ _ Ha Hb).
Defined.

(** The claim of C4 fails for "closer_to_0.5".  The numbers that 0.1 and
    0.9 are read as differ in their distance to 0.5, the first being the
    nearer one, yet both subtractions round to the same number and the row
    is a tie.  And the numbers that 0.3 and 0.7 are read as get a decided
    row, although the decimal texts are equally far from 0.5. *)
Lemma closer_ties_unequal_deviations :
  finite (ratio 1 10) (3602879701896397 # 36028797018963968)
  ∧ finite (ratio 9 10) (8106479329266893 # 9007199254740992)
  ∧ (Qabs ((3602879701896397 # 36028797018963968) - (1 # 2))
     < Qabs ((8106479329266893 # 9007199254740992) - (1 # 2)))%Q
  ∧ verdict "closer_to_0.5" (ratio 1 10) (ratio 9 10) = Tie
  ∧ (Qabs ((3 # 10) - (1 # 2)) == Qabs ((7 # 10) - (1 # 2)))%Q
  ∧ verdict "closer_to_0.5" (ratio 3 10) (ratio 7 10) = BBetter.
Proof.
  split.
  { split; [reflexivity|]. eexists. split; [reflexivity|]. by vm_compute. }
  split.
  { split; [reflexivity|]. eexists. split; [reflexivity|]. by vm_compute. }
  split; [by vm_compute|]. split; [by vm_compute|].
  split; by vm_compute.
Qed.

(** Scenario 4 of the specification, on the rows of the code. *)
Example verdict_scenarios :
  verdict "higher" (of_Z 112) (of_Z 100) = ABetter
  ∧ verdict "lower" (ratio 1 16) (ratio 1 20) = BBetter
  ∧ verdict "closer_to_0.5" (ratio 49 100) (ratio 52 100) = ABetter.
Proof. by vm_compute. Qed.

(** *** Symmetry *)

Lemma verdict_swap compareType a b :
  verdict compareType b a = swap_verdict (verdict compareType a b).
Proof.
  destruct (decide (compareType = "higher"%string)) as [->|H1].
  { by rewrite !verdict_higher, three_way_swap. }
  destruct (decide (compareType = "lower"%string)) as [->|H2].
  { by rewrite !verdict_lower, three_way_swap. }
  destruct (decide (compareType = "closer_to_0.5"%string)) as [->|H3].
  { by rewrite !verdict_closer, three_way_swap. }
  by rewrite !verdict_other.
Qed.

(** [x || 0] changes no comparison of a number that is not NaN. *)
Lemma three_way_or0 x y :
  is_nan x = false → is_nan y = false →
  three_way x (or0 y) = three_way x y
  ∧ three_way (or0 x) y = three_way x y.
Proof.
  intros Hx Hy. unfold three_way.
  by rewrite !ltb_or0_l, !ltb_or0_r.
Qed.

(** *** The counters of the summary *)

Lemma tally_counts st customLeads existingLeads property :
  fst (fst (tally st customLeads existingLeads property))
  = (fst (fst st) + if customLeads then 1 else 0)%nat
  ∧ snd (fst (tally st customLeads existingLeads property))
    = (snd (fst st)
       + if customLeads then 0 else if existingLeads then 1 else 0)%nat.
Proof.
  destruct st as [[cw ew] ds]. unfold tally.
  destruct customLeads, existingLeads; cbn [fst snd]; lia.
Qed.

Lemma wins_A_three_way x y vs :
  wins ABetter (three_way x y :: vs)
  = ((if ltb x y then 1 else 0) + wins ABetter vs)%nat.
Proof. unfold wins, three_way. by destruct (ltb x y), (ltb y x). Qed.

Lemma wins_B_three_way x y vs :
  wins BBetter (three_way x y :: vs)
  = ((if ltb x y then 0 else if ltb y x then 1 else 0)
     + wins BBetter vs)%nat.
Proof. unfold wins, three_way. by destruct (ltb x y), (ltb y x). Qed.

Lemma summary_counters c e :
  customWins (generateComparisonSummary c e) = fst (fst (summary_tally c e))
  ∧ existingWins (generateComparisonSummary c e)
    = snd (fst (summary_tally c e))
  ∧ overall (generateComparisonSummary c e)
    = headline (fst (fst (summary_tally c e))) (snd (fst (summary_tally c e))).
Proof.
  unfold generateComparisonSummary. by destruct (summary_tally c e) as [[cw ew] ds].
Qed.

Lemma summary_tally_counts c e :
  fst (fst (summary_tally c e)) = wins ABetter (summary_verdicts c e)
  ∧ snd (fst (summary_tally c e)) = wins BBetter (summary_verdicts c e).
Proof.
  unfold summary_tally, summary_verdicts, gtb.
  rewrite verdict_higher, verdict_closer, !verdict_lower.
  rewrite !wins_A_three_way, !wins_B_three_way.
  repeat match goal with
  | |- context [tally ?st ?a ?b ?p] =>
      let H1 := fresh in let H2 := fresh in
      destruct (tally_counts st a b p) as [H1 H2]; rewrite H1, H2;
      clear H1 H2
  end.
  cbn [fst snd wins List.filter length]. lia.
Qed.

Lemma headline_spec cw ew :
  (headline cw ew = ABetter ↔ (ew < cw)%nat)
  ∧ (headline cw ew = BBetter ↔ (cw < ew)%nat)
  ∧ (headline cw ew = Tie ↔ cw = ew).
Proof.
  unfold headline.
  destruct (Nat.ltb_spec ew cw), (Nat.ltb_spec cw ew);
    repeat split; (done || lia).
Qed.

(** C5: the summary leaves BIC out.  On the sample payloads, which differ
    on BIC only, the table of the click handler shows one decided verdict,
    for the uploaded side on BIC, while the summary of the same handler
    counts no win for either side and declares a tie. *)
Lemma summary_leaves_out_bic :
  map row_verdict (comparison_rows sample_custom sample_existing)
  = [Tie; Tie; ABetter; Tie; Tie; Tie]
  ∧ wins ABetter
      (map row_verdict (comparison_rows sample_custom sample_existing))
    = 1%nat
  ∧ wins BBetter
      (map row_verdict (comparison_rows sample_custom sample_existing))
    = 0%nat
  ∧ customWins (generateComparisonSummary sample_custom sample_existing) = 0%nat
  ∧ existingWins (generateComparisonSummary sample_custom sample_existing)
    = 0%nat
  ∧ overall (generateComparisonSummary sample_custom sample_existing) = Tie.
Proof. by vm_compute. Qed.

Lemma wins_swap side vs :
  wins side (map swap_verdict vs) = wins (swap_verdict side) vs.
Proof.
  unfold wins. induction vs as [|v vs IH]; [done|].
  cbn [map List.filter]. destruct side, v; cbn [swap_verdict length]; auto.
Qed.

Lemma summary_verdicts_exchange c e :
  is_nan (fixed_points c) = false → is_nan (TO e) = false →
  summary_verdicts (exchange_custom e) (exchange_existing c e)
  = map swap_verdict (summary_verdicts c e).
Proof.
  intros Hc He. unfold summary_verdicts, exchange_custom, exchange_existing.
  cbn [map nonlinearity sac lap dap fixed_points NL SAC LAP DAP TO].
  rewrite <- !verdict_swap. do 4 f_equal.
  rewrite !verdict_lower. f_equal.
  destruct (three_way_or0 (TO e) (fixed_points c) He Hc) as [-> _].
  by destruct (three_way_or0 (TO e) (fixed_points c) He Hc) as [_ ->].
Qed.

Lemma comparison_rows_exchange c e :
  is_nan (fixed_points c) = false → is_nan (TO e) = false →
  map row_verdict (comparison_rows (exchange_custom e) (exchange_existing c e))
  = map swap_verdict (map row_verdict (comparison_rows c e)).
Proof.
  intros Hc He. unfold comparison_rows, exchange_custom, exchange_existing.
  cbn [map nonlinearity sac bic lap dap fixed_points NL SAC BIC_SAC LAP DAP TO].
  rewrite !row_verdict_render, <- !verdict_swap. do 5 f_equal.
  rewrite !verdict_lower. f_equal.
  destruct (three_way_or0 (TO e) (fixed_points c) He Hc) as [-> _].
  by destruct (three_way_or0 (TO e) (fixed_points c) He Hc) as [_ ->].
Qed.

Lemma headline_swap cw ew : headline ew cw = swap_verdict (headline cw ew).
Proof.
  unfold headline.
  destruct (Nat.ltb_spec ew cw), (Nat.ltb_spec cw ew); (done || lia).
Qed.

(** C6 (comparator symmetry).  Exchanging the two sides exchanges ABetter
    and BBetter in the verdict of every comparison and leaves every tie a
    tie, for all numbers.  For payloads it does so in every row of the
    table and in the summary (counters and headline); the two values that
    meet [|| 0], the fixed points of the uploaded side and TO of the
    catalogued one, are taken not to be NaN there. *)
Theorem comparator_symmetry (compareType : string) (a b : number)
    (c : CustomMetrics) (e : ExistingMetrics) :
  verdict compareType b a = swap_verdict (verdict compareType a b)
  ∧ (verdict compareType a b = Tie ↔ verdict compareType b a = Tie)
  ∧ (is_nan (fixed_points c) = false → is_nan (TO e) = false →
     map row_verdict
       (comparison_rows (exchange_custom e) (exchange_existing c e))
     = map swap_verdict (map row_verdict (comparison_rows c e))
     ∧ customWins (generateComparisonSummary (exchange_custom e)
                     (exchange_existing c e))
       = existingWins (generateComparisonSummary c e)
     ∧ existingWins (generateComparisonSummary (exchange_custom e)
                       (exchange_existing c e))
       = customWins (generateComparisonSummary c e)
     ∧ overall (generateComparisonSummary (exchange_custom e)
                  (exchange_existing c e))
       = swap_verdict (overall (generateComparisonSummary c e))).
Proof.
  split; [apply verdict_swap|]. split.
  { rewrite (verdict_swap compareType a b).
    by destruct (verdict compareType a b). }
  intros Hnc Hne. split; [by apply comparison_rows_exchange|].
  destruct (summary_counters c e) as (Hc & He & Ho).
  destruct (summary_counters (exchange_custom e) (exchange_existing c e))
    as (Hc' & He' & Ho').
  destruct (summary_tally_counts c e) as [Hcw Hew].
  destruct (summary_tally_counts (exchange_custom e) (exchange_existing c e))
    as [Hcw' Hew'].
  rewrite summary_verdicts_exchange, wins_swap in Hcw', Hew' by done.
  cbn [swap_verdict] in Hcw', Hew'.
  rewrite Ho, Ho', Hc, Hc', He, He', Hcw, Hcw', Hew, Hew'.
  split; [done|]. split; [done|]. apply headline_swap.
Qed.

Lemma comparator_symmetry_witness :
  is_nan (fixed_points sample_custom) = false
  ∧ is_nan (TO sample_existing) = false
  ∧ map row_verdict
      (comparison_rows (exchange_custom sample_existing)
         (exchange_existing sample_custom sample_existing))
    = map swap_verdict
        (map row_verdict (comparison_rows sample_custom sample_existing))
  ∧ customWins (generateComparisonSummary (exchange_custom sample_existing)
                  (exchange_existing sample_custom sample_existing))
    = existingWins (generateComparisonSummary sample_custom sample_existing)
  ∧ existingWins (generateComparisonSummary (exchange_custom sample_existing)
                    (exchange_existing sample_custom sample_existing))
    = customWins (generateComparisonSummary sample_custom sample_existing)
  ∧ overall (generateComparisonSummary (exchange_custom sample_existing)
               (exchange_existing sample_custom sample_existing))
    = swap_verdict
        (overall (generateComparisonSummary sample_custom sample_existing)).
Proof.
  assert (is_nan (fixed_points sample_custom) = false) as Hc by reflexivity.
  assert (is_nan (TO sample_existing) = false) as He by reflexivity.
  split; [exact Hc|]. split; [exact He|].
  exact (proj2 (proj2 (comparator_symmetry "higher" (of_Z 1) (of_Z 2)
                         sample_custom sample_existing)) Hc He).
Defined.

(** C7, as the code has it.  The comparison renders exactly six rows, in the
    order Nonlinearity, SAC, BIC, LAP, DAP, Fixed Points; each row compares
    the value of the uploaded S-box with the value of the catalogued one
    that the handler pairs with it (NL, SAC, BIC_SAC, LAP, DAP, and TO or 0),
    SAC, BIC, LAP and DAP after rounding to four decimals. *)
Theorem comparison_coverage (c : CustomMetrics) (e : ExistingMetrics) :
  map row_label (comparison_rows c e)
  = ["Nonlinearity"; "SAC"; "BIC"; "LAP"; "DAP"; "Fixed Points"]%string
  ∧ map row_verdict (comparison_rows c e)
    = [ verdict "higher" (nonlinearity c) (NL e);
        verdict "closer_to_0.5" (toFixed4 (sac c)) (toFixed4 (SAC e));
        verdict "closer_to_0.5" (toFixed4 (bic c)) (toFixed4 (BIC_SAC e));
        verdict "lower" (toFixed4 (lap c)) (toFixed4 (LAP e));
        verdict "lower" (toFixed4 (dap c)) (toFixed4 (DAP e));
        verdict "lower" (fixed_points c) (or0 (TO e)) ].
Proof.
  split.
  - unfold comparison_rows, renderComparisonRow. cbn [map].
    repeat match goal with
    | |- context [comparison_flags ?ct ?a ?b] =>
        destruct (comparison_flags ct a b)
    end. reflexivity.
  - unfold comparison_rows. cbn [map]. by rewrite !row_verdict_render.
Qed.

(** The claim of C7 fails on the sample payloads (as on any other): the
    rows are not the ten keys of the canonical order. *)
Lemma comparison_rows_not_canonical :
  map row_label (comparison_rows sample_custom sample_existing)
  ≠ canonical_keys
  ∧ length (comparison_rows sample_custom sample_existing) = 6%nat.
Proof. split; [|reflexivity]. vm_compute. discriminate. Qed.

(** Rounding to four decimals can hide a difference that the summary still
    counts, and it can turn a comparison round: 0.44996 is further from 0.5
    than 0.55 is, and 0.4500 is nearer to it than 0.5500. *)
Example rounding_hides_difference :
  verdict "closer_to_0.5" (toFixed4 (ratio 50001 100000))
    (toFixed4 (ratio 50002 100000)) = Tie
  ∧ verdict "closer_to_0.5" (ratio 50001 100000) (ratio 50002 100000)
    = ABetter
  ∧ verdict "closer_to_0.5" (toFixed4 (ratio 44996 100000))
      (toFixed4 (ratio 55 100)) = ABetter
  ∧ verdict "closer_to_0.5" (ratio 44996 100000) (ratio 55 100) = BBetter.
Proof. by vm_compute. Qed.

End Comparator.

(** ** Scenarios of the specification, evaluated *)

(** Scenario 1: the identity table is its own inverse; [65] is encoded as one
    block, 65 followed by fifteen pad bytes 15, and decoded with the original
    length 1. *)
Example scenario_identity :
  construct identity_table
  = inr (mkTable identity_table (generateInverseSBox identity_table))
  ∧ (∀ i, (i < 256)%nat →
          generateInverseSBox identity_table !! Z.of_nat i = Some (Z.of_nat i))
  ∧ fst (encode [65] (mkTable identity_table (generateInverseSBox identity_table)))
    = 65 :: replicate 15 15
  ∧ decode (65 :: replicate 15 15)
      (mkTable identity_table (generateInverseSBox identity_table)) (Some 1%nat)
    = inr [65].
Proof.
  assert (is_bijection identity_table = true) as Hb by (vm_compute; reflexivity).
  split; [by apply construct_of_bijection|]. split.
  - intros i Hi. unfold generateInverseSBox.
    apply inv_loop_written; [by apply is_bijection_NoDup|done|].
    unfold identity_table, byte_values.
    rewrite list_lookup_fmap, lookup_seq_lt by done. reflexivity.
  - split; vm_compute; reflexivity.
Qed.

(** Scenario 2: exchanging the entries at 5 and 9 keeps the table valid.
    Scenario 3: a table with the value 10 at 3 and at 7 is rejected for a
    duplicate value. *)
Example scenario_swap_and_duplicate :
  (∃ t, construct swap_5_9 = inr t)
  ∧ construct dup_3_7 = inl (NotBijective DuplicateOrMissingValue).
Proof.
  split; [|vm_compute; reflexivity].
  eexists. apply construct_of_bijection. vm_compute. reflexivity.
Qed.

(** * Part III: further properties of the code *)

(** ** The inverse of an arbitrary table *)

(** What the loop of [generateInverseSBox] leaves at key [v]: the last
    index below [n] that carries [v], or what was there before. *)
Lemma inv_loop_lookup (sbox : list Z) (m : gmap Z Z) (n : nat) (v : Z) :
  (∃ k, (k < n)%nat ∧ sbox !! k = Some v
        ∧ (∀ j, (k < j < n)%nat → sbox !! j ≠ Some v)
        ∧ foldl (inv_step sbox) m (seq 0 n) !! v = Some (Z.of_nat k))
  ∨ ((∀ j, (j < n)%nat → sbox !! j ≠ Some v)
     ∧ foldl (inv_step sbox) m (seq 0 n) !! v = m !! v).
Proof.
  induction n as [|n IH].
  - right. split; [lia|reflexivity].
  - rewrite inv_loop_snoc. unfold inv_step at 1 3.
    destruct (sbox !! n) as [w|] eqn:Hn.
    + destruct (decide (w = v)) as [->|Hne].
      * left. exists n. rewrite lookup_insert_eq.
        split; [lia|]. split; [done|]. split; [lia|done].
      * rewrite !lookup_insert_ne by done.
        destruct IH as [(k & Hk & Hv & Hlast & Hl)|[Hnone Hl]].
        -- left. exists k. split; [lia|]. split; [done|]. split; [|done].
           intros j Hj. destruct (decide (j = n)) as [->|]; [congruence|].
           apply Hlast. lia.
        -- right. split; [|done]. intros j Hj.
           destruct (decide (j = n)) as [->|]; [congruence|]. apply Hnone. lia.
    + destruct IH as [(k & Hk & Hv & Hlast & Hl)|[Hnone Hl]].
      * left. exists k. split; [lia|]. split; [done|]. split; [|done].
        intros j Hj. destruct (decide (j = n)) as [->|]; [congruence|].
        apply Hlast. lia.
      * right. split; [|done]. intros j Hj.
        destruct (decide (j = n)) as [->|]; [congruence|]. apply Hnone. lia.
Qed.

(** X1.  For any table, bijective or not, every entry [inv[v] = i] of the
    array built by [generateInverseSBox] points to an index [i] below 256
    that carries [v] in the table, and to the last such index when [v] is
    repeated; a key whose value is not among the first 256 entries stays
    undefined. *)
Theorem inverse_entries_sound (sbox : list Z) (v : Z) :
  (∀ i, generateInverseSBox sbox !! v = Some i →
        ∃ k, i = Z.of_nat k ∧ (k < 256)%nat ∧ sbox !! k = Some v
             ∧ ∀ j, (k < j < 256)%nat → sbox !! j ≠ Some v)
  ∧ (generateInverseSBox sbox !! v = None
     ↔ ∀ j, (j < 256)%nat → sbox !! j ≠ Some v).
Proof.
  unfold generateInverseSBox, new_Array_256.
  destruct (inv_loop_lookup sbox ∅ 256 v)
    as [(k & Hk & Hv & Hlast & Hl)|[Hnone Hl]];
    revert Hl; generalize (foldl (inv_step sbox) ∅ (seq 0 256)); intros inv Hl.
  - split.
    + intros i Hi. exists k. rewrite Hl in Hi. by injection Hi as <-.
    + split; [congruence|]. intros Hnone. by apply Hnone in Hv.
  - rewrite lookup_empty in Hl. split; [congruence|]. by split.
Qed.

Lemma fill_0_lookup (l : list nat) (v : Z) :
  (list_to_map (map (fun i : nat => (Z.of_nat i, 0)) l) : gmap Z Z) !! v
  = if decide (v ∈ map Z.of_nat l) then Some 0 else None.
Proof.
  induction l as [|i l IH]; cbn [map list_to_map foldr].
  - rewrite lookup_empty. case_decide as H; [|done].
    by apply elem_of_nil in H.
  - destruct (decide (Z.of_nat i = v)) as [<-|Hne].
    + rewrite lookup_insert_eq. rewrite decide_True; [done|left].
    + rewrite lookup_insert_ne by done. rewrite IH.
      destruct (decide (v ∈ map Z.of_nat l)) as [Hin|Hnin].
      * rewrite decide_True; [done|by right].
      * rewrite decide_False; [done|].
        intros [->|Hin]%elem_of_cons; done.
Qed.

Lemma new_Array_256_fill_0_lookup (v : Z) :
  new_Array_256_fill_0 !! v = if decide (0 <= v < 256) then Some 0 else None.
Proof.
  unfold new_Array_256_fill_0. rewrite fill_0_lookup.
  fold byte_values. pose proof (elem_of_byte_values v) as Hb.
  destruct (decide (v ∈ byte_values)), (decide (0 <= v < 256)); tauto.
Qed.

(** X2.  The array built by [generateInverseSBoxFromArray] has no hole at
    any key 0..255, whatever the table; a byte value that the first 256
    entries of the table do not contain is mapped to 0 there, while
    [generateInverseSBox] leaves it undefined. *)
Theorem inverse_from_array_total (sbox : list Z) (v : Z) :
  0 <= v < 256 →
  is_Some (generateInverseSBoxFromArray sbox !! v)
  ∧ ((∀ j, (j < 256)%nat → sbox !! j ≠ Some v) →
     generateInverseSBoxFromArray sbox !! v = Some 0
     ∧ generateInverseSBox sbox !! v = None).
Proof.
  intros Hv. pose proof (new_Array_256_fill_0_lookup v) as Hfill.
  rewrite decide_True in Hfill by done.
  pose proof (proj2 (inverse_entries_sound sbox v)) as Hplain.
  unfold generateInverseSBoxFromArray.
  destruct (inv_loop_lookup sbox new_Array_256_fill_0 256 v)
    as [(k & Hk & Hk' & Hlast & Hl)|[Hnone Hl]];
    revert Hl;
    generalize (foldl (inv_step sbox) new_Array_256_fill_0 (seq 0 256));
    intros inv Hl.
  - split; [by rewrite Hl|]. intros Hnone. exfalso. exact (Hnone k Hk Hk').
  - rewrite Hfill in Hl. split; [by rewrite Hl|]. intros _.
    split; [done|]. by apply Hplain.
Qed.

Lemma inverse_from_array_total_witness :
  0 <= 3 < 256
  ∧ is_Some (generateInverseSBoxFromArray dup_3_7 !! 3)
  ∧ ((∀ j, (j < 256)%nat → dup_3_7 !! j ≠ Some 3) →
     generateInverseSBoxFromArray dup_3_7 !! 3 = Some 0
     ∧ generateInverseSBox dup_3_7 !! 3 = None).
Proof.
  split; [lia|]. apply (inverse_from_array_total dup_3_7 3). lia.
Defined.

(** ** The demo on arbitrary input *)

Lemma low_bytes_idem txt : low_bytes (low_bytes txt) = low_bytes txt.
Proof.
  unfold low_bytes. rewrite map_map. apply map_ext. intros c.
  by rewrite N.Div0.mod_mod.
Qed.

Lemma encrypt_units_low_bytes st txt :
  encrypt_units st (low_bytes txt) = encrypt_units st txt.
Proof.
  unfold encrypt_units, low_bytes. rewrite map_map. apply map_ext.
  intros c. by rewrite N.Div0.mod_mod.
Qed.

(** X3.  [doCrypto] sees only the low byte of each character: an input and
    the same input with every code unit reduced modulo 256 leave the same
    cipher and the same decryption in the panes, for any table. *)
Theorem demo_reads_low_bytes (st : State) (txt : list N) :
  doCrypto st (low_bytes txt) = doCrypto st txt.
Proof.
  unfold doCrypto. rewrite encrypt_units_low_bytes. by destruct txt.
Qed.

Lemma encrypt_units_defined st txt :
  is_Some (mapM id (encrypt_units st txt))
  ↔ Forall (λ c, (N.to_nat (c mod 256)%N < length (currentData_sbox st))%nat)
      txt.
Proof.
  unfold encrypt_units. induction txt as [|c txt IH].
  - split; [constructor|by eexists].
  - cbn [map]. rewrite Forall_cons, <- IH, <- lookup_lt_is_Some.
    split.
    + intros [ciph Hm]. apply mapM_Some in Hm.
      apply Forall2_cons_inv_l in Hm as (b & ciph' & Hb & Hrest & ->).
      split; [by exists b|]. exists ciph'. by apply mapM_Some.
    + intros [[b Hb] [ciph Hm]]. exists (b :: ciph).
      apply mapM_Some. constructor; [done|]. by apply mapM_Some.
Qed.

(** X4.  [doCrypto] stops with a TypeError exactly when the input is not
    empty and the table has no entry at the low byte of some character; in
    particular never for a table of at least 256 entries, where a non-empty
    input gets one cipher number and one decrypted code unit per
    character. *)
Theorem demo_throws_iff (st : State) (txt : list N) :
  (doCrypto st txt = Threw
   ↔ txt ≠ []
     ∧ Exists (λ c, (length (currentData_sbox st) <= N.to_nat (c mod 256)%N)%nat)
         txt)
  ∧ ((256 <= length (currentData_sbox st))%nat → txt ≠ [] →
     ∃ ciph dec, doCrypto st txt = Shown ciph dec
                 ∧ length ciph = length txt ∧ length dec = length txt).
Proof.
  pose proof (encrypt_units_defined st txt) as Hdef.
  assert (∀ ciph, mapM id (encrypt_units st txt) = Some ciph →
                  length ciph = length txt) as Hlen.
  { intros ciph Hm. apply mapM_Some, Forall2_length in Hm.
    unfold encrypt_units in Hm. by rewrite length_map in Hm. }
  split.
  - unfold doCrypto. destruct txt as [|c txt]; [by split; [|intros [? _]]|].
    destruct (mapM id (encrypt_units st (c :: txt))) as [ciph|] eqn:Hm.
    + split; [discriminate|]. intros [_ Hex]. exfalso.
      apply Exists_exists in Hex as (x & Hin & Hx).
      assert (is_Some (Some ciph)) as Hs by eauto.
      apply Hdef in Hs. rewrite Forall_forall in Hs. apply Hs in Hin. lia.
    + split; [|done]. intros _. split; [done|].
      assert (¬ Forall (λ c0, (N.to_nat (c0 mod 256)%N
                               < length (currentData_sbox st))%nat) (c :: txt))
        as Hnot.
      { intros Hall. apply Hdef in Hall as [? ?]. discriminate. }
      apply not_Forall_Exists in Hnot; [|intros x; apply _].
      eapply Exists_impl; [exact Hnot|]. intros x Hx. cbn in Hx. lia.
  - intros Hbig Htxt.
    assert (is_Some (mapM id (encrypt_units st txt))) as [ciph Hm].
    { apply Hdef, Forall_forall. intros c _.
      pose proof (N.mod_upper_bound c 256). lia. }
    exists ciph, (decrypt_units st ciph). unfold doCrypto. rewrite Hm.
    split; [by destruct txt|]. split; [by apply Hlen|].
    unfold decrypt_units. rewrite length_map. by apply Hlen.
Qed.

(** X5.  With a bijective table current, the cipher of the demo determines
    the low bytes of the input: two non-empty inputs get the same cipher
    exactly when they agree modulo 256 character by character; so two
    different inputs of code units below 256 never share a cipher. *)
Theorem demo_cipher_injective (sbox : list Z) (t1 t2 : list N) :
  is_bijection sbox = true → t1 ≠ [] → t2 ≠ [] →
  ∃ c1 c2,
    doCrypto (updateUI sbox) t1 = Shown c1 (low_bytes t1)
    ∧ doCrypto (updateUI sbox) t2 = Shown c2 (low_bytes t2)
    ∧ (c1 = c2 ↔ low_bytes t1 = low_bytes t2)
    ∧ (Forall (λ c, (c < 256)%N) t1 → Forall (λ c, (c < 256)%N) t2 →
       c1 = c2 → t1 = t2).
Proof.
  intros Hb H1 H2.
  destruct (demo_units sbox t1 Hb) as (c1 & Hf1 & Hm1 & Hd1).
  destruct (demo_units sbox t2 Hb) as (c2 & Hf2 & Hm2 & Hd2).
  exists c1, c2.
  assert (doCrypto (updateUI sbox) t1 = Shown c1 (low_bytes t1)) as Hdo1.
  { unfold doCrypto. destruct t1; [done|]. by rewrite Hm1, Hd1. }
  assert (doCrypto (updateUI sbox) t2 = Shown c2 (low_bytes t2)) as Hdo2.
  { unfold doCrypto. destruct t2; [done|]. by rewrite Hm2, Hd2. }
  assert (c1 = c2 ↔ low_bytes t1 = low_bytes t2) as Hiff.
  { split.
    - intros ->. by rewrite <- Hd1, <- Hd2.
    - intros Hlow. rewrite <- encrypt_units_low_bytes, Hlow,
        encrypt_units_low_bytes, Hm2 in Hm1. by injection Hm1. }
  split; [done|]. split; [done|]. split; [done|].
  intros Hs1 Hs2 Hc. apply Hiff in Hc.
  by rewrite (proj2 (low_bytes_fixed t1) Hs1),
    (proj2 (low_bytes_fixed t2) Hs2) in Hc.
Qed.

Lemma demo_cipher_injective_witness :
  is_bijection swap_5_9 = true ∧ [72%N] ≠ [] ∧ [328%N] ≠ []
  ∧ ∃ c1 c2,
      doCrypto (updateUI swap_5_9) [72%N] = Shown c1 (low_bytes [72%N])
      ∧ doCrypto (updateUI swap_5_9) [328%N] = Shown c2 (low_bytes [328%N])
      ∧ (c1 = c2 ↔ low_bytes [72%N] = low_bytes [328%N])
      ∧ (Forall (λ c, (c < 256)%N) [72%N] →
         Forall (λ c, (c < 256)%N) [328%N] → c1 = c2 → [72%N] = [328%N]).
Proof.
  assert (is_bijection swap_5_9 = true) as Hb by (vm_compute; reflexivity).
  assert ([72%N] ≠ []) as H1 by discriminate.
  assert ([328%N] ≠ []) as H2 by discriminate.
  split; [exact Hb|]. split; [exact H1|]. split; [exact H2|].
  apply (demo_cipher_injective swap_5_9 [72%N] [328%N] Hb H1 H2).
Defined.

(** ** Hexadecimal text and the grid *)

Lemma hex_cell_checked :
  forallb (fun v =>
             match Hex.hex_cell v with
             | [a; b] => is_hex_upper a && is_hex_upper b
                         && match JS.parseInt [a; b] (Some 16) with
                            | Some w => w =? v
                            | None => false
                            end
             | _ => false
             end) byte_values = true.
Proof. vm_compute. reflexivity. Qed.

Lemma hex_cell_byte v :
  0 <= v < 256 →
  ∃ a b, Hex.hex_cell v = [a; b] ∧ is_hex_upper a = true
         ∧ is_hex_upper b = true ∧ JS.parseInt [a; b] (Some 16) = Some v.
Proof.
  intros Hv. pose proof hex_cell_checked as Hall.
  rewrite forallb_forall in Hall.
  apply elem_of_byte_values, list_elem_of_In, Hall in Hv.
  destruct (Hex.hex_cell v) as [|a [|b [|? ?]]]; try discriminate.
  exists a, b. apply andb_true_iff in Hv as [Hab Hp].
  apply andb_true_iff in Hab as [Ha Hb].
  destruct (JS.parseInt [a; b] (Some 16)) as [w|]; [|discriminate].
  apply Z.eqb_eq in Hp as ->. done.
Qed.

Lemma cell_indices_seq : Grid.cell_indices = seq 0 256.
Proof. vm_compute. reflexivity. Qed.

(** X6.  [renderSbox] stops with a TypeError exactly when the table has
    fewer than 256 entries.  Otherwise it renders 256 cells, cell [k] for
    entry [k] (later entries are not shown); and when the first 256 entries
    are bytes, every cell text has two characters and reads back, as a
    hexadecimal number, to the entry it shows. *)
Theorem grid_shows_table (heatmapEnabled : bool) (sbox : list Z) :
  (Grid.renderSbox heatmapEnabled sbox = None ↔ (length sbox < 256)%nat)
  ∧ ∀ cells, Grid.renderSbox heatmapEnabled sbox = Some cells →
      length cells = 256%nat
      ∧ (∀ k v, sbox !! k = Some v → (k < 256)%nat →
                cells !! k = Some (Grid.render_cell heatmapEnabled k v))
      ∧ (Forall is_byte (take 256 sbox) →
         map (λ c, JS.parseInt (Grid.cell_text c) (Some 16)) cells
         = map Some (take 256 sbox)
         ∧ Forall (λ c, length (Grid.cell_text c) = 2%nat) cells).
Proof.
  unfold Grid.renderSbox. rewrite cell_indices_seq.
  set (f := λ idx, Grid.render_cell heatmapEnabled idx <$> sbox !! idx).
  assert (∀ cells, mapM f (seq 0 256) = Some cells →
            length cells = 256%nat
            ∧ ∀ k v, sbox !! k = Some v → (k < 256)%nat →
                cells !! k = Some (Grid.render_cell heatmapEnabled k v))
    as Hcells.
  { intros cells Hm. apply mapM_Some in Hm.
    pose proof (Forall2_length _ _ _ Hm) as Hlen. rewrite length_seq in Hlen.
    split; [done|]. intros k v Hv Hk.
    destruct (Forall2_lookup_l _ _ _ k k Hm) as (c & Hc & Hf).
    { by apply lookup_seq_lt. }
    unfold f in Hf. rewrite Hv in Hf. cbn in Hf. congruence. }
  split.
  - split.
    + intros Hnone. apply mapM_None, Exists_exists in Hnone as (k & Hk & Hf).
      apply elem_of_seq in Hk. unfold f in Hf.
      destruct (sbox !! k) eqn:Hlook; [discriminate|].
      apply lookup_ge_None in Hlook. lia.
    + intros Hshort. apply mapM_None, Exists_exists. exists 255%nat.
      split; [apply elem_of_seq; lia|]. unfold f.
      rewrite (lookup_ge_None_2 sbox 255) by lia. done.
  - intros cells Hm. destruct (Hcells cells Hm) as [Hlen Hk].
    split; [done|]. split; [done|]. intros Hbytes.
    assert (256 <= length sbox)%nat as Hbig.
    { destruct (decide (256 <= length sbox)%nat) as [|Hsmall]; [done|].
      assert (mapM f (seq 0 256) = None) as Hn; [|congruence].
      apply mapM_None, Exists_exists. exists 255%nat.
      split; [apply elem_of_seq; lia|]. unfold f.
      rewrite (lookup_ge_None_2 sbox 255) by lia. done. }
    assert (∀ k c, cells !! k = Some c →
              ∃ v, sbox !! k = Some v ∧ 0 <= v < 256
                   ∧ c = Grid.render_cell heatmapEnabled k v) as Hcell.
    { intros k c Hc. assert (k < 256)%nat as Hlt.
      { apply lookup_lt_Some in Hc. lia. }
      destruct (lookup_lt_is_Some_2 sbox k) as [v Hv]; [lia|].
      exists v. split; [done|]. split.
      - rewrite Forall_forall in Hbytes. apply Hbytes.
        apply list_elem_of_lookup. exists k. rewrite lookup_take.
        by rewrite decide_True.
      - rewrite (Hk k v Hv Hlt) in Hc. congruence. }
    split.
    + apply list_eq. intros k. rewrite !list_lookup_fmap, lookup_take.
      destruct (cells !! k) as [c|] eqn:Hc.
      * destruct (Hcell k c Hc) as (v & Hv & Hr & ->).
        apply lookup_lt_Some in Hc. rewrite decide_True, Hv by lia.
        cbn [fmap option_fmap option_map]. f_equal.
        destruct (hex_cell_byte v Hr) as (a & b & Hab & _ & _ & Hp).
        unfold Grid.render_cell. destruct heatmapEnabled; cbn [Grid.cell_text];
          by rewrite Hab.
      * apply lookup_ge_None in Hc. case_decide; [lia|done].
    + apply Forall_forall. intros c Hin.
      apply list_elem_of_lookup in Hin as [k Hc].
      destruct (Hcell k c Hc) as (v & _ & Hr & ->).
      destruct (hex_cell_byte v Hr) as (a & b & Hab & _).
      unfold Grid.render_cell. destruct heatmapEnabled; cbn [Grid.cell_text];
        by rewrite Hab.
Qed.

Lemma grid_shows_table_witness :
  ∃ cells, Grid.renderSbox true swap_5_9 = Some cells
           ∧ length cells = 256%nat
           ∧ map (λ c, JS.parseInt (Grid.cell_text c) (Some 16)) cells
             = map Some (take 256 swap_5_9).
Proof.
  destruct (Grid.renderSbox true swap_5_9) as [cells|] eqn:Hr.
  - exists cells. split; [reflexivity|].
    destruct (proj2 (grid_shows_table true swap_5_9) cells Hr)
      as (Hlen & _ & Hbytes).
    split; [exact Hlen|]. apply Hbytes.
    apply Forall_take, Forall_forall. intros v Hin.
    apply (is_bijection_range swap_5_9); [vm_compute; reflexivity|exact Hin].
  - exfalso. apply (proj1 (grid_shows_table true swap_5_9)) in Hr.
    vm_compute in Hr. lia.
Defined.

(** X7.  For a value between 0 and 255 the heat colour is a well-formed
    [hsl] triple: the hue lies between 0 and 180, the saturation between 70
    and 100 percent, the lightness between 45 and 55 percent; a larger value
    never has a larger hue, a smaller saturation or a smaller lightness; 0
    is drawn at hue 180 and 255 at hue 0. *)
Theorem heatmap_color_range (value value' : Q) :
  (0 <= value)%Q → (value <= value')%Q → (value' <= 255)%Q →
  let '(hue, saturation, lightness) := Grid.getHeatmapColor value in
  let '(hue', saturation', lightness') := Grid.getHeatmapColor value' in
  (0 <= hue' ∧ hue' <= hue ∧ hue <= 180)%Q
  ∧ (70 <= saturation ∧ saturation <= saturation' ∧ saturation' <= 100)%Q
  ∧ (45 <= lightness ∧ lightness <= lightness' ∧ lightness' <= 55)%Q
  ∧ (value == 0 → hue == 180)%Q
  ∧ (value' == 255 → hue' == 0)%Q.
Proof.
  intros H0 Hle H255. unfold Grid.getHeatmapColor. cbv zeta.
  assert (value / 255 == value * (1 # 255))%Q as Hv by (by field).
  assert (value' / 255 == value' * (1 # 255))%Q as Hv' by (by field).
  rewrite Hv, Hv'. repeat split; lra.
Qed.

Lemma heatmap_color_range_witness :
  (0 <= 16)%Q ∧ (16 <= 200)%Q ∧ (200 <= 255)%Q
  ∧ let '(hue, saturation, lightness) := Grid.getHeatmapColor 16 in
    let '(hue', saturation', lightness') := Grid.getHeatmapColor 200 in
    (0 <= hue' ∧ hue' <= hue ∧ hue <= 180)%Q
    ∧ (70 <= saturation ∧ saturation <= saturation' ∧ saturation' <= 100)%Q
    ∧ (45 <= lightness ∧ lightness <= lightness' ∧ lightness' <= 55)%Q
    ∧ (16 == 0 → hue == 180)%Q
    ∧ (200 == 255 → hue' == 0)%Q.
Proof.
  assert (0 <= 16)%Q as H0 by lra.
  assert (16 <= 200)%Q as H1 by lra.
  assert (200 <= 255)%Q as H2 by lra.
  split; [exact H0|]. split; [exact H1|]. split; [exact H2|].
  apply (heatmap_color_range 16 200 H0 H1 H2).
Defined.

(** ** Which candidate is selected *)

Section SelectionFacts.
Import Selection.

Lemma findIndex_spec {A} (p : A → bool) (l : list A) :
  (findIndex p l = -1 ∧ Forall (λ x, p x = false) l)
  ∨ (∃ k x, findIndex p l = Z.of_nat k ∧ l !! k = Some x ∧ p x = true
            ∧ ∀ j y, (j < k)%nat → l !! j = Some y → p y = false).
Proof.
  induction l as [|a l IH]; cbn [findIndex].
  - left. by split.
  - destruct (p a) eqn:Hpa.
    + right. exists 0%nat, a. repeat split; [done|]. intros j y Hj. lia.
    + destruct IH as [[-> Hall]|(k & x & -> & Hk & Hx & Hbefore)].
      * left. split; [done|]. by constructor.
      * right. exists (S k), x. destruct (Z.eqb_spec (Z.of_nat k) (-1)); [lia|].
        split; [lia|]. split; [done|]. split; [done|].
        intros [|j] y Hj Hy; cbn in Hy; [congruence|].
        apply (Hbefore j y); [lia|done].
Qed.

Lemma option_groups_from_perm i cs :
  fst (option_groups_from i cs) ++ snd (option_groups_from i cs)
  ≡ₚ seq i (length cs).
Proof.
  revert i. induction cs as [|d cs IH]; intros i; cbn [option_groups_from].
  - done.
  - specialize (IH (S i)). destruct (option_groups_from (S i) cs) as [gr gg].
    cbn [fst snd length seq] in *. destruct (is_reference d); cbn [fst snd].
    + by constructor.
    + rewrite <- Permutation_middle. by constructor.
Qed.

Lemma option_groups_from_fst i cs x :
  x ∈ fst (option_groups_from i cs)
  ↔ ∃ k c, x = (i + k)%nat ∧ cs !! k = Some c ∧ is_reference c = true.
Proof.
  revert i. induction cs as [|d cs IH]; intros i; cbn [option_groups_from].
  - split; [intros H; by apply elem_of_nil in H|by intros (k & c & _ & H & _)].
  - specialize (IH (S i)). destruct (option_groups_from (S i) cs) as [gr gg].
    cbn [fst] in *. destruct (is_reference d) eqn:Hd; cbn [fst].
    + rewrite elem_of_cons, IH. split.
      * intros [->|(k & c & -> & Hk & Hc)].
        -- exists 0%nat, d. by rewrite Nat.add_0_r.
        -- exists (S k), c. split; [lia|done].
      * intros (k & c & -> & Hk & Hc). destruct k as [|k]; [left; lia|].
        right. exists k, c. split; [lia|done].
    + rewrite IH. split.
      * intros (k & c & -> & Hk & Hc). exists (S k), c. split; [lia|done].
      * intros (k & c & -> & Hk & Hc). destruct k as [|k]; cbn in Hk.
        -- congruence.
        -- exists k, c. split; [lia|done].
Qed.

Lemma option_groups_from_snd i cs x :
  x ∈ snd (option_groups_from i cs)
  ↔ ∃ k c, x = (i + k)%nat ∧ cs !! k = Some c ∧ is_reference c = false.
Proof.
  revert i. induction cs as [|d cs IH]; intros i; cbn [option_groups_from].
  - split; [intros H; by apply elem_of_nil in H|by intros (k & c & _ & H & _)].
  - specialize (IH (S i)). destruct (option_groups_from (S i) cs) as [gr gg].
    cbn [snd] in *. destruct (is_reference d) eqn:Hd; cbn [snd].
    + rewrite IH. split.
      * intros (k & c & -> & Hk & Hc). exists (S k), c. split; [lia|done].
      * intros (k & c & -> & Hk & Hc). destruct k as [|k]; cbn in Hk.
        -- congruence.
        -- exists k, c. split; [lia|done].
    + rewrite elem_of_cons, IH. split.
      * intros [->|(k & c & -> & Hk & Hc)].
        -- exists 0%nat, d. by rewrite Nat.add_0_r.
        -- exists (S k), c. split; [lia|done].
      * intros (k & c & -> & Hk & Hc). destruct k as [|k]; [left; lia|].
        right. exists k, c. split; [lia|done].
Qed.

(** X8.  The drop-down offers every candidate exactly once: the option
    values of the two groups together are the indices of [candidatesData],
    each once; a candidate is in the first group exactly when its type is
    standard or proposed, and in the second otherwise. *)
Theorem options_cover_candidates (candidatesData : list Candidate) :
  option_values candidatesData ≡ₚ seq 0 (length candidatesData)
  ∧ ∀ k c, candidatesData !! k = Some c →
      (k ∈ fst (option_groups candidatesData) ↔ is_reference c = true)
      ∧ (k ∈ snd (option_groups candidatesData) ↔ is_reference c = false).
Proof.
  split; [apply option_groups_from_perm|]. intros k c Hk.
  unfold option_groups.
  rewrite option_groups_from_fst, option_groups_from_snd. split; split.
  - intros (k' & c' & -> & Hk' & Hc'). cbn in Hk. congruence.
  - intros Hc. by exists k, c.
  - intros (k' & c' & -> & Hk' & Hc'). cbn in Hk. congruence.
  - intros Hc. by exists k, c.
Qed.

Lemma option_value_in_range cs v :
  v ∈ option_values cs ↔ (v < length cs)%nat.
Proof.
  unfold option_values, option_groups. rewrite option_groups_from_perm.
  rewrite elem_of_seq. lia.
Qed.

Lemma handle_in_range cs idx e :
  deliverable cs e → in_range cs idx → in_range cs (handle cs idx e).
Proof.
  unfold in_range. intros He Hidx. destruct e as [[] key|v]; cbn [handle].
  - done.
  - destruct key; [| |done].
    + destruct (Z.ltb_spec 0 idx); lia.
    + destruct (Z.ltb_spec idx (Z.of_nat (length cs) - 1)); lia.
  - cbn in He. apply option_value_in_range in He. lia.
Qed.

Lemma initial_selection_spec cs :
  cs ≠ [] →
  ∃ k c, initial_selection cs = Some (Z.of_nat k) ∧ cs !! k = Some c
         ∧ ((cand_id c = "K44"%string
             ∧ ∀ j d, (j < k)%nat → cs !! j = Some d → cand_id d ≠ "K44"%string)
            ∨ (k = 0%nat ∧ Forall (λ d, cand_id d ≠ "K44"%string) cs)).
Proof.
  intros Hne. unfold initial_selection.
  destruct (findIndex_spec (λ c, String.eqb (cand_id c) "K44") cs)
    as [[-> Hall]|(k & x & -> & Hk & Hx & Hbefore)].
  - destruct cs as [|c cs]; [done|]. exists 0%nat, c.
    split; [done|]. split; [done|]. right. split; [done|].
    eapply Forall_impl; [exact Hall|]. intros d Hd. cbn in Hd.
    by apply String.eqb_neq.
  - destruct cs as [|c cs]; [done|]. exists k, x.
    destruct (Z.eqb_spec (Z.of_nat k) (-1)); [lia|].
    split; [done|]. split; [done|]. left. split.
    + by apply String.eqb_eq.
    + intros j d Hj Hd. apply String.eqb_neq. by apply (Hbefore j d).
Qed.

(** X9.  With a non-empty catalogue the page starts on the first candidate
    whose id is K44, and on candidate 0 when there is none; with an empty
    catalogue nothing is selected. *)
Theorem initial_selection_K44 (candidatesData : list Candidate) :
  (initial_selection candidatesData = None ↔ candidatesData = [])
  ∧ (candidatesData ≠ [] →
     ∃ k c, initial_selection candidatesData = Some (Z.of_nat k)
            ∧ candidatesData !! k = Some c
            ∧ ((cand_id c = "K44"%string
                ∧ ∀ j d, (j < k)%nat → candidatesData !! j = Some d →
                         cand_id d ≠ "K44"%string)
               ∨ (k = 0%nat
                  ∧ Forall (λ d, cand_id d ≠ "K44"%string) candidatesData))).
Proof.
  split; [|apply initial_selection_spec].
  unfold initial_selection. by destruct candidatesData.
Qed.

(** X10.  From the initial selection on, after any sequence of key presses
    and choices in the drop-down, the selected index is a valid index of
    [candidatesData]: [updateUI] never reads an undefined candidate. *)
Theorem selection_always_valid (candidatesData : list Candidate)
    (i0 : Z) (events : list Event) :
  initial_selection candidatesData = Some i0 →
  Forall (deliverable candidatesData) events →
  ∃ c, currentData candidatesData (foldl (handle candidatesData) i0 events)
       = Some c.
Proof.
  intros Hinit Hev.
  assert (in_range candidatesData i0) as H0.
  { destruct candidatesData as [|c0 cs]; [discriminate|].
    destruct (initial_selection_spec (c0 :: cs)) as (k & c & Hk & Hc & _);
      [done|].
    rewrite Hinit in Hk. injection Hk as ->.
    apply lookup_lt_Some in Hc. unfold in_range. lia. }
  assert (in_range candidatesData (foldl (handle candidatesData) i0 events))
    as Hend.
  { clear Hinit. revert i0 H0.
    induction Hev as [|e events He _ IH]; intros i0 H0; [done|].
    cbn [foldl]. apply IH. by apply handle_in_range. }
  unfold in_range in Hend. unfold currentData.
  destruct (Z.ltb_spec (foldl (handle candidatesData) i0 events) 0); [lia|].
  apply lookup_lt_is_Some_2. lia.
Qed.

End SelectionFacts.

(** ** What the text tab remembers *)

Section TextFlowFacts.
Import TextFlow.

Lemma failures_change_nothing w failures :
  Forall (eq Failed) failures → foldl record_action w failures = w.
Proof. induction 1 as [|a l <- _ IH]; [done|]. exact IH. Qed.

Lemma window_one_text actions :
  let w := foldl record_action fresh_window actions in
  lastCipherHex w = None ∨ lastDecryptedText w = None.
Proof.
  cbv zeta.
  assert (∀ w, (lastCipherHex w = None ∨ lastDecryptedText w = None) →
               lastCipherHex (foldl record_action w actions) = None
               ∨ lastDecryptedText (foldl record_action w actions) = None)
    as Hgen; [|apply Hgen; by left].
  induction actions as [|a actions IH]; intros w Hw; [done|].
  cbn [foldl]. apply IH. destruct a as [h n|t|]; cbn [record_action].
  - destruct (has_pair h); [by right|done].
  - by left.
  - done.
Qed.

Lemma has_pair_nonempty h : has_pair h = true → truthy (Some h) = Some h.
Proof. by destruct h. Qed.

(** X11.  Of the last cipher and the last decrypted text the window keeps
    at most one.  After a successful decryption (and any number of failed
    actions) there is nothing to download and Copy yields the decrypted
    text, or nothing when that text is empty, never the earlier cipher;
    after a successful encryption Copy yields the new cipher and Download
    offers it with its length. *)
Theorem text_tab_memory (actions failures : list Action) :
  Forall (eq Failed) failures →
  let w := foldl record_action fresh_window actions in
  (lastCipherHex w = None ∨ lastDecryptedText w = None)
  ∧ (∀ t, let w' := foldl record_action (record_action w (Decrypted t))
                      failures in
          download w' = None ∧ copy_text w' = truthy (Some t))
  ∧ (∀ h n, has_pair h = true →
            let w' := foldl record_action (record_action w (Encrypted h n))
                        failures in
            copy_text w' = Some h
            ∧ download w' = TextTab.download_content (Some h) n).
Proof.
  intros Hf w. split; [apply window_one_text|]. split.
  - intros t w'. unfold w'. rewrite failures_change_nothing by done.
    cbn [record_action]. unfold download, copy_text.
    cbn [lastCipherHex lastDecryptedText lastOriginalLength].
    split; [done|]. by destruct t.
  - intros h n Hh w'. unfold w'. rewrite failures_change_nothing by done.
    cbn [record_action]. rewrite Hh. unfold download, copy_text.
    cbn [lastCipherHex lastDecryptedText lastOriginalLength truthy].
    split; [by apply has_pair_nonempty|done].
Qed.

Lemma text_tab_memory_witness :
  Forall (eq Failed) [Failed]
  ∧ let w := foldl record_action fresh_window
               [Encrypted (JS.lit "00112233445566778899AABBCCDDEEFF")
                  (Some 5%N)] in
    (lastCipherHex w = None ∨ lastDecryptedText w = None)
    ∧ (∀ t, let w' := foldl record_action (record_action w (Decrypted t))
                        [Failed] in
            download w' = None ∧ copy_text w' = truthy (Some t))
    ∧ (∀ h n, has_pair h = true →
              let w' := foldl record_action (record_action w (Encrypted h n))
                          [Failed] in
              copy_text w' = Some h
              ∧ download w' = TextTab.download_content (Some h) n).
Proof.
  assert (Forall (eq Failed) [Failed]) as Hf by (by repeat constructor).
  split; [exact Hf|].
  apply (text_tab_memory
           [Encrypted (JS.lit "00112233445566778899AABBCCDDEEFF") (Some 5%N)]
           [Failed] Hf).
Defined.

(** *** What the decrypt routine accepts *)

Lemma hex_upper_facts c :
  is_hex_upper c = true →
  Ascii.eqb c "-" = false ∧ Ascii.eqb c "+" = false
  ∧ (Ascii.eqb c "x" || Ascii.eqb c "X") = false
  ∧ Ascii.eqb "L" c = false
  ∧ ∃ d, JS.digit_in_radix 16 c = Some d ∧ 0 <= d < 16.
Proof.
  destruct c as [[] [] [] [] [] [] [] []]; try discriminate; intros _;
    repeat split; try reflexivity; eexists;
    (split; [vm_compute; reflexivity|by vm_compute]).
Qed.

Lemma parseInt_hex_pair a b :
  is_hex_upper a = true → is_hex_upper b = true →
  ∃ v, JS.parseInt [a; b] (Some 16) = Some v ∧ 0 <= v < 256.
Proof.
  intros Ha Hb.
  destruct (hex_upper_facts a Ha) as (Hm & Hp & _ & _ & da & Hda & Hra).
  destruct (hex_upper_facts b Hb) as (_ & _ & Hx & _ & db & Hdb & Hrb).
  unfold JS.parseInt. rewrite trimStart_plain by (by apply hex_upper_plain).
  rewrite Hm, Hp, Hx, andb_false_r. cbn [default JS.parse_digits id].
  rewrite Hda, Hdb. cbn [JS.or_zero fmap option_fmap option_map].
  eexists. split; [reflexivity|]. lia.
Qed.

Lemma hex_bytes_spec n s :
  length s = (2 * n)%nat → Forall (λ c, is_hex_upper c = true) s →
  length (hex_bytes s) = n ∧ Forall is_byte (hex_bytes s).
Proof.
  revert s. induction n as [|n IH]; intros s Hlen Hs.
  - destruct s; [by split|discriminate].
  - destruct s as [|a [|b s]]; [discriminate|cbn in Hlen; lia|].
    apply Forall_cons in Hs as [Ha Hs]. apply Forall_cons in Hs as [Hb Hs].
    destruct (IH s) as [Hl Hbytes]; [cbn in Hlen; lia|done|].
    destruct (parseInt_hex_pair a b Ha Hb) as (v & Hv & Hr).
    cbn [hex_bytes]. rewrite Hv. cbn [JS.or_zero length].
    split; [by rewrite Hl|]. by constructor.
Qed.

Lemma cipher_hex_bytes h :
  is_cipher_hex h = true →
  (16 <= length (hex_bytes h))%nat ∧ Forall is_byte (hex_bytes h)
  ∧ (2 * length (hex_bytes h) = length h)%nat.
Proof.
  intros Hh. destruct (is_cipher_hex_chars h Hh) as [_ Hchars].
  unfold is_cipher_hex in Hh. rewrite !andb_true_iff in Hh.
  destruct Hh as [[_ Heven] Hlong].
  apply Nat.eqb_eq in Heven. apply Nat.leb_le in Hlong.
  pose proof (Nat.div_mod_eq (length h) 2) as Hdiv.
  destruct (hex_bytes_spec (length h / 2) h) as [Hl Hb]; [lia|done|].
  rewrite Hl. split; [lia|]. split; [done|lia].
Qed.

Lemma parse_accepted inputField lengthField input :
  parse_cipher_input inputField lengthField = inr input →
  is_cipher_hex (cipherHex input) = true
  ∧ cipherBytes input = hex_bytes (cipherHex input).
Proof.
  unfold parse_cipher_input. destruct (JS.trim inputField); [discriminate|].
  destruct (if JS.startsWith _ _ then _ else _) as [len text].
  fold (is_cipher_hex (JS.toUpperCase (JS.remove_whitespace text))).
  destruct (is_cipher_hex _) eqn:Hh; [|discriminate].
  by intros [= <-].
Qed.

(** X12.  [decryptTextEnhanced] either ends in one of its own alerts (no
    input, not a cipher text, blank key) without asking the service, or it
    asks the service once, with at least 16 cipher bytes, each in 0..255,
    and with a key that is not blank; what it shows then is the answer of
    the service. *)
Theorem decrypt_request_well_formed
    (service : DecryptRequest → DecryptResponse)
    (inputField lengthField keyField : list ascii) :
  (∃ a, decryptTextEnhanced service inputField lengthField keyField
        = DecryptAlerted a
        ∧ ∀ e, a ≠ DecryptionFailed e)
  ∨ (∃ r, (16 <= length (dreq_cipher_bytes r))%nat
          ∧ Forall is_byte (dreq_cipher_bytes r)
          ∧ dreq_key r = key_or_default keyField
          ∧ JS.trim (dreq_key r) ≠ []
          ∧ decryptTextEnhanced service inputField lengthField keyField
            = match service r with
              | DecryptOk plaintext => PlaintextShown plaintext
              | DecryptError e => DecryptAlerted (DecryptionFailed e)
              end).
Proof.
  unfold decryptTextEnhanced.
  destruct (parse_cipher_input inputField lengthField) as [a|input] eqn:Hp.
  { left. by eexists. }
  destruct (JS.trim (key_or_default keyField)) as [|c k] eqn:Hk.
  { left. by eexists. }
  right.
  exists (mkDecryptRequest (cipherBytes input) (key_or_default keyField)
            (originalLength input)).
  cbn [dreq_cipher_bytes dreq_key]. rewrite Hk.
  destruct (parse_accepted _ _ _ Hp) as [Hh ->].
  destruct (cipher_hex_bytes _ Hh) as (Hlen & Hbytes & _).
  split; [done|]. split; [done|]. split; [done|]. split; [done|]. done.
Qed.

(** X13.  A cipher hex text without the LENGTH header (what Download writes
    when no original length is known) is accepted as it is; the original
    length then comes from the hidden field, and is absent when that field
    is empty, holds no number, or holds 0. *)
Theorem bare_hex_uses_hidden_length (h lengthField : list ascii) :
  is_cipher_hex h = true →
  download_content (Some h) None = Some h
  ∧ download_content (Some h) (Some 0%N) = Some h
  ∧ parse_cipher_input h lengthField
    = inr (mkCipherInput (hidden_length lengthField) h (hex_bytes h))
  ∧ (hidden_length lengthField = None
     ↔ JS.parseInt lengthField None = None
       ∨ JS.parseInt lengthField None = Some 0).
Proof.
  intros Hh. destruct (is_cipher_hex_chars h Hh) as [Hne Hchars].
  split; [by destruct h|]. split; [by destruct h|]. split.
  - unfold parse_cipher_input.
    rewrite trim_all_plain by (by apply cipher_hex_plain).
    destruct h as [|c h']; [done|].
    apply Forall_cons in Hchars as [Hc _].
    destruct (hex_upper_facts c Hc) as (_ & _ & _ & HL & _).
    assert (JS.startsWith (c :: h') (JS.lit "LENGTH:") = false) as ->.
    { cbn [JS.lit list_ascii_of_string JS.startsWith]. by rewrite HL. }
    rewrite cipher_hex_cleaned by done. fold (is_cipher_hex (c :: h')).
    by rewrite Hh.
  - unfold hidden_length.
    destruct (JS.parseInt lengthField None) as [[| |]|]; split;
      try done; try (by right); try (by left); intros [?|?]; done.
Qed.

Lemma bare_hex_uses_hidden_length_witness :
  is_cipher_hex (JS.lit "00112233445566778899AABBCCDDEEFF") = true
  ∧ download_content (Some (JS.lit "00112233445566778899AABBCCDDEEFF")) None
    = Some (JS.lit "00112233445566778899AABBCCDDEEFF")
  ∧ download_content (Some (JS.lit "00112233445566778899AABBCCDDEEFF"))
      (Some 0%N)
    = Some (JS.lit "00112233445566778899AABBCCDDEEFF")
  ∧ parse_cipher_input (JS.lit "00112233445566778899AABBCCDDEEFF")
      (JS.lit "17")
    = inr (mkCipherInput (hidden_length (JS.lit "17"))
             (JS.lit "00112233445566778899AABBCCDDEEFF")
             (hex_bytes (JS.lit "00112233445566778899AABBCCDDEEFF")))
  ∧ (hidden_length (JS.lit "17") = None
     ↔ JS.parseInt (JS.lit "17") None = None
       ∨ JS.parseInt (JS.lit "17") None = Some 0).
Proof.
  assert (is_cipher_hex (JS.lit "00112233445566778899AABBCCDDEEFF") = true)
    as Hh by (vm_compute; reflexivity).
  split; [exact Hh|].
  apply (bare_hex_uses_hidden_length _ (JS.lit "17") Hh).
Defined.

(** *** The cipher text of the demo pane, read by the decrypt routine *)

Lemma hex_cell_upper b :
  is_byte b →
  ∃ x y, Hex.hex_cell b = [x; y] ∧ is_hex_upper x = true
         ∧ is_hex_upper y = true ∧ JS.parseInt [x; y] (Some 16) = Some b.
Proof. unfold is_byte. apply hex_cell_byte. Qed.

Lemma concat_hex_cells bs :
  Forall is_byte bs →
  Forall (λ c, is_hex_upper c = true) (concat (map Hex.hex_cell bs))
  ∧ length (concat (map Hex.hex_cell bs)) = (2 * length bs)%nat
  ∧ hex_bytes (concat (map Hex.hex_cell bs)) = bs.
Proof.
  induction 1 as [|b bs Hb _ (Hall & Hlen & Hbytes)]; [done|].
  destruct (hex_cell_upper b Hb) as (x & y & Hxy & Hx & Hy & Hp).
  cbn [map concat]. rewrite Hxy. cbn [app length hex_bytes].
  rewrite Hp, Hbytes, Hlen. cbn [JS.or_zero].
  split; [by repeat constructor|]. split; [lia|done].
Qed.

Lemma remove_whitespace_separated bs :
  Forall is_byte bs →
  JS.remove_whitespace
    (flat_map (λ q, " "%char :: q) (map Hex.hex_cell bs))
  = concat (map Hex.hex_cell bs).
Proof.
  induction 1 as [|b bs Hb _ IH]; [done|].
  destruct (hex_cell_upper b Hb) as (x & y & Hxy & Hx & Hy & _).
  cbn [map flat_map concat]. rewrite Hxy. unfold JS.remove_whitespace in *.
  cbn [app List.filter]. rewrite IH.
  apply hex_upper_plain in Hx, Hy. unfold JS.plain in Hx, Hy.
  rewrite Hx, Hy. reflexivity.
Qed.

Lemma last_separated bs :
  Forall is_byte bs → bs ≠ [] →
  ∃ c, last (flat_map (λ q, " "%char :: q) (map Hex.hex_cell bs)) = Some c
       ∧ is_hex_upper c = true.
Proof.
  induction 1 as [|b bs Hb Hbs IH]; [done|]. intros _.
  destruct (hex_cell_upper b Hb) as (x & y & Hxy & Hx & Hy & _).
  cbn [map flat_map]. rewrite Hxy. destruct bs as [|b' bs].
  - exists y. by split.
  - destruct IH as (c & Hc & Hup); [done|]. exists c. split; [|done].
    rewrite last_app, Hc. done.
Qed.

Lemma cipher_pane_shape b bs :
  Forall is_byte (b :: bs) →
  ∃ x rest y,
    Hex.cipher_pane (b :: bs) = x :: rest ++ [y]
    ∧ is_hex_upper x = true ∧ is_hex_upper y = true
    ∧ JS.toUpperCase (JS.remove_whitespace (Hex.cipher_pane (b :: bs)))
      = concat (map Hex.hex_cell (b :: bs)).
Proof.
  intros Hall. pose proof Hall as Hall'.
  apply Forall_cons in Hall' as [Hb Hbs].
  destruct (hex_cell_upper b Hb) as (x & y & Hxy & Hx & Hy & _).
  unfold Hex.cipher_pane, Hex.join. cbn [map]. rewrite Hxy.
  assert (JS.toUpperCase
            (JS.remove_whitespace
               ([x; y] ++ flat_map (λ q, [" "%char] ++ q) (map Hex.hex_cell bs)))
          = concat (map Hex.hex_cell (b :: bs))) as Hclean.
  { change (flat_map (λ q, [" "%char] ++ q) (map Hex.hex_cell bs))
      with (flat_map (λ q, " "%char :: q) (map Hex.hex_cell bs)).
    unfold JS.remove_whitespace. rewrite List.filter_app.
    fold (JS.remove_whitespace
            (flat_map (λ q, " "%char :: q) (map Hex.hex_cell bs))).
    rewrite remove_whitespace_separated by done.
    pose proof (hex_upper_plain x Hx) as Hpx.
    pose proof (hex_upper_plain y Hy) as Hpy. unfold JS.plain in Hpx, Hpy.
    cbn [List.filter]. rewrite Hpx, Hpy. cbn [negb app map concat].
    rewrite Hxy. cbn [app].
    destruct (concat_hex_cells (b :: bs) Hall) as [Hup _].
    cbn [map concat] in Hup. rewrite Hxy in Hup. cbn [app] in Hup.
    unfold JS.toUpperCase. clear -Hup.
    induction Hup as [|c l Hc _ IH]; [done|]. cbn [map].
    by rewrite hex_upper_toUpperCase, IH. }
  assert (concat (map Hex.hex_cell (b :: bs))
          = concat ([x; y] :: map Hex.hex_cell bs)) as Hsame.
  { cbn [map]. by rewrite Hxy. }
  rewrite Hsame in Hclean. revert Hclean.
  generalize (concat ([x; y] :: map Hex.hex_cell bs)).
  intros cleaned Hclean. destruct bs as [|b' bs].
  - exists x, [], y. cbn [map flat_map app] in *. by repeat split.
  - destruct (last_separated (b' :: bs) Hbs) as (c & Hc & Hup); [done|].
    change (flat_map (λ q, [" "%char] ++ q) (map Hex.hex_cell (b' :: bs)))
      with (flat_map (λ q, " "%char :: q) (map Hex.hex_cell (b' :: bs))) in *.
    apply last_Some in Hc as [l' Hl']. rewrite Hl' in *.
    exists x, (y :: l'), c. by repeat split.
Qed.

(** X14.  The cipher text the demo shows (two upper-case hex digits per
    byte, separated by blanks) is a valid input of the decrypt routine as
    soon as it has at least 16 bytes: the routine reads back exactly those
    bytes; a shorter non-empty one is refused as no cipher text. *)
Theorem demo_cipher_text_accepted (bs : list Z) (lengthField : list ascii) :
  Forall is_byte bs → bs ≠ [] →
  ((16 <= length bs)%nat →
   parse_cipher_input (Hex.cipher_pane bs) lengthField
   = inr (mkCipherInput (TextFlow.hidden_length lengthField)
            (concat (map Hex.hex_cell bs)) bs))
  ∧ ((length bs < 16)%nat →
     parse_cipher_input (Hex.cipher_pane bs) lengthField
     = inl NotValidCipherText).
Proof.
  intros Hall Hne. destruct bs as [|b bs]; [done|].
  destruct (cipher_pane_shape b bs Hall) as (x & rest & y & Hshape & Hx & Hy & Hclean).
  destruct (concat_hex_cells (b :: bs) Hall) as (Hup & Hlen & Hbytes).
  destruct (hex_upper_facts x Hx) as (_ & _ & _ & HL & _).
  assert (∀ r, parse_cipher_input (Hex.cipher_pane (b :: bs)) lengthField = r
               → r = if is_cipher_hex (concat (map Hex.hex_cell (b :: bs)))
                     then inr (mkCipherInput (TextFlow.hidden_length lengthField)
                                 (concat (map Hex.hex_cell (b :: bs)))
                                 (hex_bytes (concat (map Hex.hex_cell (b :: bs)))))
                     else inl NotValidCipherText) as Hparse.
  { intros r <-. unfold parse_cipher_input. rewrite <- Hclean.
    generalize (Hex.cipher_pane (b :: bs)) Hshape. intros pane ->.
    rewrite trim_plain by (by apply hex_upper_plain).
    assert (JS.startsWith (x :: rest ++ [y]) (JS.lit "LENGTH:") = false) as ->.
    { cbn [JS.lit list_ascii_of_string JS.startsWith]. by rewrite HL. }
    fold (is_cipher_hex
            (JS.toUpperCase (JS.remove_whitespace (x :: rest ++ [y])))).
    by destruct (is_cipher_hex _). }
  assert (is_cipher_hex (concat (map Hex.hex_cell (b :: bs)))
          = (32 <=? 2 * length (b :: bs))%nat) as Hvalid.
  { unfold is_cipher_hex, hex_test. rewrite Hlen.
    assert (forallb is_hex_upper (concat (map Hex.hex_cell (b :: bs))) = true)
      as Hfb.
    { apply forallb_forall. intros c Hc. rewrite Forall_forall in Hup.
      by apply Hup, list_elem_of_In. }
    rewrite Hfb.
    assert ((2 * length (b :: bs)) mod 2 = 0)%nat as ->.
    { rewrite Nat.mul_comm. apply Nat.Div0.mod_mul. }
    destruct (concat (map Hex.hex_cell (b :: bs))); [|done].
    cbn in Hlen. lia. }
  rewrite (Hparse _ eq_refl), Hvalid, Hbytes. split; intros Hn.
  - by destruct (Nat.leb_spec 32 (2 * length (b :: bs))); [|lia].
  - by destruct (Nat.leb_spec 32 (2 * length (b :: bs))); [lia|].
Qed.

Lemma demo_cipher_text_accepted_witness :
  Forall is_byte (replicate 16 171) ∧ replicate 16 171 ≠ []
  ∧ ((16 <= length (replicate 16 171))%nat →
     parse_cipher_input (Hex.cipher_pane (replicate 16 171)) []
     = inr (mkCipherInput (TextFlow.hidden_length [])
              (concat (map Hex.hex_cell (replicate 16 171)))
              (replicate 16 171)))
  ∧ ((length (replicate 16 171) < 16)%nat →
     parse_cipher_input (Hex.cipher_pane (replicate 16 171)) []
     = inl NotValidCipherText).
Proof.
  assert (Forall is_byte (replicate 16 171)) as Hb.
  { apply Forall_replicate. unfold is_byte. lia. }
  assert (replicate 16 171 ≠ []) as Hne by discriminate.
  split; [exact Hb|]. split; [exact Hne|].
  apply (demo_cipher_text_accepted (replicate 16 171) [] Hb Hne).
Defined.

(** *** The key field *)

Lemma trimStart_blank s :
  Forall (λ c, JS.is_whitespace c = true) s → JS.trimStart s = [].
Proof. induction 1 as [|c s Hc _ IH]; [done|]. cbn. by rewrite Hc. Qed.

Lemma trimStart_keeps_plain s :
  Exists JS.plain s → Exists JS.plain (JS.trimStart s).
Proof.
  induction s as [|c s IH]; intros Hex; [by apply Exists_nil in Hex|].
  cbn [JS.trimStart]. destruct (JS.is_whitespace c) eqn:Hc; [|done].
  apply Exists_cons in Hex as [Hp|Hex]; [|by apply IH].
  unfold JS.plain in Hp. congruence.
Qed.

Lemma trim_blank_iff s :
  JS.trim s = [] ↔ Forall (λ c, JS.is_whitespace c = true) s.
Proof.
  split.
  - intros Htrim. apply Forall_forall. intros c Hin.
    destruct (JS.is_whitespace c) eqn:Hc; [done|]. exfalso.
    assert (Exists JS.plain s) as Hex by (apply Exists_exists; eauto).
    apply trimStart_keeps_plain in Hex.
    assert (Exists JS.plain (rev (JS.trimStart s))) as Hrev.
    { apply Exists_exists in Hex as (x & Hx & Hp). apply Exists_exists.
      exists x. split; [|done]. by apply list_elem_of_In, in_rev,
        list_elem_of_In; rewrite rev_involutive. }
    apply trimStart_keeps_plain in Hrev. unfold JS.trim, JS.trimEnd in Htrim.
    destruct (JS.trimStart (rev (JS.trimStart s))) as [|x l];
      [by apply Exists_nil in Hrev|].
    apply (f_equal (@length ascii)) in Htrim.
    rewrite length_rev in Htrim. discriminate.
  - intros Hall. unfold JS.trim. by rewrite trimStart_blank.
Qed.

(** X15.  The Encrypt action with a non-empty text and a key field of
    code units below 256: an empty key field stands for the key
    "cryptography2024"; a key field holding nothing but white space (the
    no-break space included) ends in the key alert without any request; any
    other key is sent exactly as typed, surrounding blanks included. *)
Theorem encrypt_key_handling (service : EncryptRequest → EncryptResponse)
    (txt : list Z) (keyField : list ascii) :
  txt ≠ [] →
  let outcome_of key :=
    match service (mkEncryptRequest txt key) with
    | EncryptOk c n => CipherStored c n
    | EncryptError e => Alerted (EncryptionFailed e)
    end in
  (keyField = [] →
   encryptTextEnhanced service txt keyField = outcome_of DEFAULT_KEY)
  ∧ (keyField ≠ [] → Forall (λ c, JS.is_whitespace c = true) keyField →
     encryptTextEnhanced service txt keyField = Alerted PleaseEnterKey)
  ∧ (Exists JS.plain keyField →
     encryptTextEnhanced service txt keyField = outcome_of keyField).
Proof.
  intros Htxt outcome_of. unfold encryptTextEnhanced, outcome_of.
  destruct txt as [|b txt]; [done|]. split; [|split].
  - intros ->. reflexivity.
  - intros Hne Hblank. destruct keyField as [|c k]; [done|].
    cbn [key_or_default]. by rewrite (proj2 (trim_blank_iff (c :: k)) Hblank).
  - intros Hplain. destruct keyField as [|c k]; [by apply Exists_nil in Hplain|].
    cbn [key_or_default].
    destruct (JS.trim (c :: k)) eqn:Ht; [|done].
    apply trim_blank_iff in Ht. exfalso.
    apply Exists_exists in Hplain as (x & Hin & Hp).
    rewrite Forall_forall in Ht. apply Ht in Hin. unfold JS.plain in Hp.
    congruence.
Qed.

Lemma encrypt_key_handling_witness :
  [65] ≠ []
  ∧ let outcome_of key :=
      match encode_service (mkTable swap_5_9 (generateInverseSBox swap_5_9))
              (mkEncryptRequest [65] key) with
      | EncryptOk c n => CipherStored c n
      | EncryptError e => Alerted (EncryptionFailed e)
      end in
    (JS.lit " k " = [] →
     encryptTextEnhanced
       (encode_service (mkTable swap_5_9 (generateInverseSBox swap_5_9)))
       [65] (JS.lit " k ") = outcome_of DEFAULT_KEY)
    ∧ (JS.lit " k " ≠ [] →
       Forall (λ c, JS.is_whitespace c = true) (JS.lit " k ") →
       encryptTextEnhanced
         (encode_service (mkTable swap_5_9 (generateInverseSBox swap_5_9)))
         [65] (JS.lit " k ") = Alerted PleaseEnterKey)
    ∧ (Exists JS.plain (JS.lit " k ") →
       encryptTextEnhanced
         (encode_service (mkTable swap_5_9 (generateInverseSBox swap_5_9)))
         [65] (JS.lit " k ") = outcome_of (JS.lit " k ")).
Proof.
  assert ([65] ≠ []) as Hne by discriminate.
  split; [exact Hne|].
  apply (encrypt_key_handling
           (encode_service (mkTable swap_5_9 (generateInverseSBox swap_5_9)))
           [65] (JS.lit " k ") Hne).
Defined.

(** A key field that holds a no-break space and nothing else is blank for
    [trim]: the action ends in the key alert. *)
Example no_break_space_key (service : EncryptRequest → EncryptResponse) :
  encryptTextEnhanced service [65] [ascii_of_N 160] = Alerted PleaseEnterKey.
Proof. reflexivity. Qed.

End TextFlowFacts.

(** ** The detail lines of the summary and the rows of the table *)

Section SummaryFacts.
Import Binary64 MetricComparator SummaryDetail.

Lemma tally_eq st a b property :
  tally st a b property
  = ((fst (fst st) + (if a then 1 else 0))%nat,
     (snd (fst st) + (if a then 0 else if b then 1 else 0))%nat,
     snd st ++ step_details a b property).
Proof.
  destruct st as [[cw ew] ds]. unfold tally, step_details.
  destruct a, b; cbn [fst snd]; rewrite ?app_nil_r;
    repeat f_equal; lia.
Qed.

(** The booleans of the five comparisons. *)
Lemma summary_tally_eq c e :
  let a1 := gtb (nonlinearity c) (NL e) in
  let b1 := gtb (NL e) (nonlinearity c) in
  let a2 := ltb (abs (sub (sac c) half)) (abs (sub (SAC e) half)) in
  let b2 := ltb (abs (sub (SAC e) half)) (abs (sub (sac c) half)) in
  let a3 := ltb (lap c) (LAP e) in
  let b3 := ltb (LAP e) (lap c) in
  let a4 := ltb (dap c) (DAP e) in
  let b4 := ltb (DAP e) (dap c) in
  let a5 := ltb (fixed_points c) (or0 (TO e)) in
  let b5 := ltb (or0 (TO e)) (fixed_points c) in
  details (generateComparisonSummary c e)
  = step_details a1 b1 "Nonlinearity" ++ step_details a2 b2 "SAC"
    ++ step_details a3 b3 "LAP" ++ step_details a4 b4 "DAP"
    ++ step_details a5 b5 "Fixed Points"
  ∧ customWins (generateComparisonSummary c e)
    = length (List.filter is_custom (details (generateComparisonSummary c e)))
  ∧ (customWins (generateComparisonSummary c e)
     + existingWins (generateComparisonSummary c e))%nat
    = length (details (generateComparisonSummary c e)).
Proof.
  cbv zeta. unfold generateComparisonSummary, summary_tally.
  rewrite !tally_eq. cbn [fst snd details customWins existingWins app].
  split; [by rewrite <- !app_assoc|].
  generalize (gtb (nonlinearity c) (NL e)) (gtb (NL e) (nonlinearity c))
    (ltb (abs (sub (sac c) half)) (abs (sub (SAC e) half)))
    (ltb (abs (sub (SAC e) half)) (abs (sub (sac c) half)))
    (ltb (lap c) (LAP e)) (ltb (LAP e) (lap c))
    (ltb (dap c) (DAP e)) (ltb (DAP e) (dap c))
    (ltb (fixed_points c) (or0 (TO e))) (ltb (or0 (TO e)) (fixed_points c)).
  unfold step_details.
  intros a1 b1 a2 b2 a3 b3 a4 b4 a5 b5.
  destruct a1, b1, a2, b2, a3, b3, a4, b4, a5, b5; by cbn.
Qed.

Lemma step_details_mem side p a b q :
  (side, p) ∈ step_details a b q ↔ p = q ∧ leads side a b.
Proof.
  unfold step_details, leads.
  destruct a, b, side; rewrite ?list_elem_of_singleton, ?elem_of_nil;
    intuition congruence.
Qed.

Lemma step_details_properties a b q :
  map snd (step_details a b q) `sublist_of` [q].
Proof.
  unfold step_details. destruct a, b; cbn [map snd];
    (reflexivity || apply sublist_nil_l).
Qed.

(** X16.  The summary prints one detail line for every comparison it
    decides and none for a tie: the number of lines is the sum of the two
    counters, the lines for the uploaded S-box are as many as its wins, and
    the lines follow the order Nonlinearity, SAC, LAP, DAP, Fixed Points
    without repeating a property. *)
Theorem summary_detail_lines (c : CustomMetrics) (e : ExistingMetrics) :
  let s := generateComparisonSummary c e in
  length (details s) = (customWins s + existingWins s)%nat
  ∧ length (List.filter is_custom (details s)) = customWins s
  ∧ map snd (details s) `sublist_of` summary_properties.
Proof.
  intros s. destruct (summary_tally_eq c e) as (Hd & Hc & Hlen). fold s in Hd, Hc, Hlen.
  split; [done|]. split; [done|]. rewrite Hd, !map_app.
  unfold summary_properties.
  change ["Nonlinearity"; "SAC"; "LAP"; "DAP"; "Fixed Points"]%string
    with (["Nonlinearity"%string] ++ ["SAC"%string] ++ ["LAP"%string]
          ++ ["DAP"%string] ++ ["Fixed Points"%string]).
  repeat apply sublist_app; apply step_details_properties.
Qed.

(** *** The rows against the summary *)

Lemma render_fields label a b compareType target :
  row_label (renderComparisonRow label a b compareType target) = label
  ∧ customBetter (renderComparisonRow label a b compareType target)
    = fst (comparison_flags compareType a b)
  ∧ existingBetter (renderComparisonRow label a b compareType target)
    = snd (comparison_flags compareType a b).
Proof.
  unfold renderComparisonRow. by destruct (comparison_flags compareType a b).
Qed.

Lemma flags_higher a b :
  comparison_flags "higher" a b = (ltb b a, negb (ltb b a) && ltb a b).
Proof.
  unfold comparison_flags, gtb.
  change (String.eqb "higher" "higher") with true. cbv iota.
  by destruct (ltb b a), (ltb a b).
Qed.

Lemma flags_lower a b :
  comparison_flags "lower" a b = (ltb a b, negb (ltb a b) && ltb b a).
Proof.
  unfold comparison_flags.
  change (String.eqb "lower" "higher") with false.
  change (String.eqb "lower" "lower") with true. cbv iota.
  by destruct (ltb a b), (ltb b a).
Qed.

Lemma details_mem c e side p :
  (side, p) ∈ details (generateComparisonSummary c e)
  ↔ (p = "Nonlinearity"%string
     ∧ leads side (gtb (nonlinearity c) (NL e)) (gtb (NL e) (nonlinearity c)))
    ∨ (p = "SAC"%string
       ∧ leads side (ltb (abs (sub (sac c) half)) (abs (sub (SAC e) half)))
           (ltb (abs (sub (SAC e) half)) (abs (sub (sac c) half))))
    ∨ (p = "LAP"%string
       ∧ leads side (ltb (lap c) (LAP e)) (ltb (LAP e) (lap c)))
    ∨ (p = "DAP"%string
       ∧ leads side (ltb (dap c) (DAP e)) (ltb (DAP e) (dap c)))
    ∨ (p = "Fixed Points"%string
       ∧ leads side (ltb (fixed_points c) (or0 (TO e)))
           (ltb (or0 (TO e)) (fixed_points c))).
Proof.
  destruct (summary_tally_eq c e) as (-> & _ & _).
  by rewrite !elem_of_app, !step_details_mem.
Qed.

Lemma leads_decided side x y :
  leads side (ltb x y) (ltb y x)
  ↔ match side with
    | Custom => ltb x y = true
    | Existing => ltb y x = true
    end.
Proof.
  unfold leads. destruct side; [done|]. split; [by intros [_ ?]|].
  intros H. split; [by apply ltb_asym|done].
Qed.

Lemma second_flag x y : negb (ltb x y) && ltb y x = ltb y x.
Proof.
  destruct (ltb y x) eqn:H; [|by rewrite andb_false_r].
  by rewrite (ltb_asym _ _ H).
Qed.

(** X17.  The Nonlinearity row and the Fixed Points row of the table carry
    the trophy on exactly the side that the summary names for that
    property, for all payloads: the two places read the same values and
    compare them the same way.  (The rows for SAC, LAP and DAP compare
    values rounded to four decimals, the summary compares the values
    themselves; see [rows_against_summary_on_sac].) *)
Theorem rows_agree_with_summary (c : CustomMetrics) (e : ExistingMetrics)
    (r : Row) :
  r ∈ comparison_rows c e →
  row_label r = "Nonlinearity"%string ∨ row_label r = "Fixed Points"%string →
  let lines := details (generateComparisonSummary c e) in
  (customBetter r = true ↔ (Custom, row_label r) ∈ lines)
  ∧ (existingBetter r = true ↔ (Existing, row_label r) ∈ lines).
Proof.
  intros Hr Hlabel lines. unfold lines, comparison_rows in *.
  repeat (apply elem_of_cons in Hr as [->|Hr]); [..|by apply elem_of_nil in Hr];
    match goal with
    | _ : context [renderComparisonRow ?l ?a ?b ?ct ?t] |- _ =>
        destruct (render_fields l a b ct t) as (Hl & -> & ->);
          rewrite Hl in *
    end;
    try (destruct Hlabel; discriminate);
    rewrite ?flags_higher, ?flags_lower; cbn [fst snd];
    rewrite !second_flag, !details_mem; unfold gtb; rewrite !leads_decided.
  - (* Nonlinearity *)
    split; (split; [intros H; by left|]);
      intros [[_ H]|[[? _]|[[? _]|[[? _]|[? _]]]]]; done.
  - (* Fixed Points *)
    split; (split; [intros H; by repeat right|]);
      intros [[? _]|[[? _]|[[? _]|[[? _]|[_ H]]]]]; done.
Qed.

Lemma rows_agree_with_summary_witness :
  renderComparisonRow "Nonlinearity" (nonlinearity sample_custom)
    (NL sample_existing) "higher" "≥100"
  ∈ comparison_rows sample_custom sample_existing
  ∧ (row_label (renderComparisonRow "Nonlinearity"
                  (nonlinearity sample_custom) (NL sample_existing)
                  "higher" "≥100") = "Nonlinearity"%string
     ∨ row_label (renderComparisonRow "Nonlinearity"
                    (nonlinearity sample_custom) (NL sample_existing)
                    "higher" "≥100") = "Fixed Points"%string)
  ∧ ∀ r, r ∈ comparison_rows sample_custom sample_existing →
      row_label r = "Nonlinearity"%string
      ∨ row_label r = "Fixed Points"%string →
      let lines := details (generateComparisonSummary sample_custom
                              sample_existing) in
      (customBetter r = true ↔ (Custom, row_label r) ∈ lines)
      ∧ (existingBetter r = true ↔ (Existing, row_label r) ∈ lines).
Proof.
  split; [unfold comparison_rows; left|]. split; [by left|].
  intros r Hr Hl.
  apply (rows_agree_with_summary sample_custom sample_existing r Hr Hl).
Defined.

(** On SAC the table and the summary can name opposite sides: with 0.44996
    against 0.55 the row, which compares 0.4500 with 0.5500, gives the
    trophy to the uploaded side, and the summary, which compares the values
    themselves, names the catalogued one. *)
Example rows_against_summary_on_sac :
  map (λ r, (row_label r, customBetter r, existingBetter r))
    (comparison_rows rounded_custom rounded_existing)
  = [ ("Nonlinearity", false, false); ("SAC", true, false);
      ("BIC", false, false); ("LAP", false, false); ("DAP", false, false);
      ("Fixed Points", false, false) ]%string
  ∧ details (generateComparisonSummary rounded_custom rounded_existing)
    = [(Existing, "SAC"%string)].
Proof. by vm_compute. Qed.

End SummaryFacts.

(** ** The progress bars *)

Section BarFacts.
Import MetricBars.
Local Open Scope Q_scope.

Lemma ratio_nonneg v m : 0 <= v → 0 < m → 0 <= v / m.
Proof.
  intros Hv Hm. unfold Qdiv. apply Qmult_le_0_compat; [done|].
  apply Qinv_le_0_compat. lra.
Qed.

Lemma clipped_bounds x : 0 <= Qmax 0 x * 100 ∧ (1 <= x ↔ 100 <= Qmax 0 x * 100).
Proof.
  destruct (Q.max_spec 0 x) as [[H Hm]|[H Hm]]; split; try split; lra.
Qed.

(** The width of one bar, for any configuration with a positive maximum. *)
Lemma bar_width_generic (config : MetricConfig) :
  0 < cfg_max config →
  bar_width config <= 100
  ∧ (cfg_inverse config = true ∨ cfg_isZeroGood config = true
     ∨ is_Some (cfg_isClose config) → 0 <= bar_width config)
  ∧ (cfg_inverse config = false → cfg_isZeroGood config = false →
     cfg_isClose config = None →
     (0 <= bar_width config ↔ 0 <= cfg_value config))
  ∧ (cfg_inverse config = true → cfg_max config <= cfg_value config →
     bar_width config == 0).
Proof.
  intros Hmax. unfold bar_width.
  assert (∀ p, Qmin 100 p <= 100 ∧ (0 <= p → 0 <= Qmin 100 p)
               ∧ (p < 0 → Qmin 100 p < 0) ∧ (p == 0 → Qmin 100 p == 0))
    as Hmin.
  { intros p. destruct (Q.min_spec 100 p) as [[? ?]|[? ?]];
      repeat split; intros; lra. }
  destruct (Hmin (progress config)) as (Hle & Hnn & Hneg & Hzero).
  destruct (clipped_bounds (1 - cfg_value config / cfg_max config))
    as [Hclip _].
  split; [done|]. split; [|split].
  - intros Hmark. apply Hnn. unfold progress.
    destruct (cfg_inverse config); [done|].
    destruct (cfg_isZeroGood config).
    { destruct (Qeq_bool (cfg_value config) 0); [lra|done]. }
    destruct Hmark as [?|[?|[isClose Hc]]]; try discriminate.
    rewrite Hc. destruct isClose; lra.
  - intros Hi Hz Hc. unfold progress in *. rewrite Hi, Hz, Hc in *. split.
    + intros Hw. destruct (Qlt_le_dec (cfg_value config) 0) as [Hv|]; [|done].
      exfalso. assert (cfg_value config / cfg_max config < 0) as Hr.
      { apply Qlt_shift_div_r; lra. }
      assert (cfg_value config / cfg_max config * 100 < 0) as Hp by lra.
      apply Hneg in Hp. lra.
    + intros Hv. apply Hnn.
      pose proof (ratio_nonneg _ _ Hv Hmax). lra.
  - intros Hi Hv. apply Hzero. unfold progress. rewrite Hi.
    assert (1 <= cfg_value config / cfg_max config) as Hr.
    { apply Qle_shift_div_l; lra. }
    destruct (Q.max_spec 0 (1 - cfg_value config / cfg_max config))
      as [[? ?]|[? ?]]; lra.
Qed.

(** X18.  Of the ten bars that [renderMetrics] draws, none is ever wider
    than 100 percent; when NL, BIC_NL and AD are not negative, no bar has a
    negative width; the DU bar is empty from 256 on and the TO bar from 10
    on. *)
Theorem metric_bars_in_range (metrics : Metrics) :
  Forall (λ kc, bar_width (snd kc) <= 100) (metricConfigs metrics)
  ∧ (0 <= NL metrics → 0 <= BIC_NL metrics → 0 <= AD metrics →
     Forall (λ kc, 0 <= bar_width (snd kc)) (metricConfigs metrics))
  ∧ (256 <= DU metrics →
     bar_width (mkConfig (DU metrics) 256 true false None) == 0)
  ∧ (10 <= TO metrics →
     bar_width (mkConfig (TO metrics) 10 true false None) == 0).
Proof.
  assert (Forall (λ kc : string * MetricConfig, 0 < cfg_max (snd kc))
            (metricConfigs metrics)) as Hmax.
  { unfold metricConfigs. repeat constructor. }
  split; [|split; [|split]].
  - eapply Forall_impl; [exact Hmax|]. intros kc Hkc.
    by apply bar_width_generic.
  - intros Hnl Hbic Had. unfold metricConfigs.
    repeat (apply Forall_cons; split); [..|constructor];
      cbn [snd];
      match goal with
      | |- 0 <= bar_width ?cfg =>
          destruct (bar_width_generic cfg) as (_ & Hmark & Hplain & _);
            [reflexivity|]
      end;
      cbn [cfg_inverse cfg_isZeroGood cfg_isClose cfg_value] in *;
      first [ apply Hmark; by left
            | apply Hmark; right; by left
            | apply Hmark; right; right; by eexists
            | by apply Hplain ].
  - intros Hdu.
    destruct (bar_width_generic (mkConfig (DU metrics) 256 true false None))
      as (_ & _ & _ & Hempty); [reflexivity|]. by apply Hempty.
  - intros Hto.
    destruct (bar_width_generic (mkConfig (TO metrics) 10 true false None))
      as (_ & _ & _ & Hempty); [reflexivity|]. by apply Hempty.
Qed.

Lemma metric_bars_in_range_witness :
  (0 <= NL sample_metrics → 0 <= BIC_NL sample_metrics →
   0 <= AD sample_metrics →
   Forall (λ kc, 0 <= bar_width (snd kc)) (metricConfigs sample_metrics))
  ∧ Forall (λ kc, 0 <= bar_width (snd kc)) (metricConfigs sample_metrics).
Proof.
  pose proof (proj1 (proj2 (metric_bars_in_range sample_metrics))) as H.
  split; [exact H|]. apply H; vm_compute; discriminate.
Defined.

End BarFacts.

(** ** Instances on the sample data *)

Section Instances.
Import PermutationTable Demo Selection.

Lemma selection_always_valid_witness :
  initial_selection sample_candidates = Some 2
  ∧ Forall (deliverable sample_candidates)
      [Keydown false ArrowRight; Change 0; Keydown false ArrowLeft;
       Keydown true ArrowRight; Change 1]
  ∧ ∃ c, currentData sample_candidates
           (foldl (handle sample_candidates) 2
              [Keydown false ArrowRight; Change 0; Keydown false ArrowLeft;
               Keydown true ArrowRight; Change 1])
         = Some c.
Proof.
  assert (initial_selection sample_candidates = Some 2) as Hinit
    by reflexivity.
  assert (Forall (deliverable sample_candidates)
            [Keydown false ArrowRight; Change 0; Keydown false ArrowLeft;
             Keydown true ArrowRight; Change 1]) as Hev.
  { repeat constructor; apply bool_decide_unpack; vm_compute; exact I. }
  split; [exact Hinit|]. split; [exact Hev|].
  exact (selection_always_valid sample_candidates 2 _ Hinit Hev).
Defined.

Lemma initial_selection_K44_witness :
  sample_candidates ≠ []
  ∧ ∃ k c, initial_selection sample_candidates = Some (Z.of_nat k)
           ∧ sample_candidates !! k = Some c
           ∧ ((cand_id c = "K44"%string
               ∧ ∀ j d, (j < k)%nat → sample_candidates !! j = Some d →
                        cand_id d ≠ "K44"%string)
              ∨ (k = 0%nat
                 ∧ Forall (λ d, cand_id d ≠ "K44"%string) sample_candidates)).
Proof.
  assert (sample_candidates ≠ []) as Hne by discriminate.
  split; [exact Hne|].
  exact (proj2 (initial_selection_K44 sample_candidates) Hne).
Defined.

Lemma demo_throws_iff_witness :
  (256 <= length (currentData_sbox (updateUI swap_5_9)))%nat
  ∧ [72%N; 105%N] ≠ []
  ∧ ∃ ciph dec, doCrypto (updateUI swap_5_9) [72%N; 105%N] = Shown ciph dec
                ∧ length ciph = length [72%N; 105%N]
                ∧ length dec = length [72%N; 105%N].
Proof.
  assert (256 <= length (currentData_sbox (updateUI swap_5_9)))%nat as Hlen
    by (vm_compute; lia).
  assert ([72%N; 105%N] ≠ []) as Hne by discriminate.
  split; [exact Hlen|]. split; [exact Hne|].
  exact (proj2 (demo_throws_iff (updateUI swap_5_9) [72%N; 105%N]) Hlen Hne).
Defined.

Lemma inverse_entries_sound_witness :
  generateInverseSBox dup_3_7 !! 10 = Some 10
  ∧ ∃ k, 10 = Z.of_nat k ∧ (k < 256)%nat ∧ dup_3_7 !! k = Some 10
         ∧ ∀ j, (k < j < 256)%nat → dup_3_7 !! j ≠ Some 10.
Proof.
  assert (generateInverseSBox dup_3_7 !! 10 = Some 10) as H
    by (vm_compute; reflexivity).
  split; [exact H|].
  exact (proj1 (inverse_entries_sound dup_3_7 10) 10 H).
Defined.

End Instances.
